(** * Shamir secret sharing over Z/pZ: the GMP demo programs

    Shallow embedding of [src/main.cpp] (per-participant share evaluation)
    and of its sibling [src/unnamed/part_000] (batch share evaluation), and
    the properties of the sharing / reconstruction pipeline.

    GMP integers ([mpz_t]) are unbounded, so they are modelled by [Z].
    Arrays ([mpz_t*], [std::vector<mpz_t>]) are lists; a cell is read with
    [l !!! i] and written with [<[i:=v]> l].  An access outside the array
    is undefined in the source; the statements below keep the indices in
    range.  The [int] loop counters only range over [0 .. k], so they are
    modelled by [nat]; a loop whose bound is not positive runs no
    iteration. *)

From Stdlib Require Import ZArith Znumtheory Zcong Lia.
From stdpp Require Import base list.

#[local] Open Scope Z_scope.

(** ** The GMP primitives used by the programs *)

Module GMP.

(** [mpz_pow_ui (rop, base, exp)]: [rop = base^exp], with [0^0 = 1]. *)
Definition mpz_pow_ui (base : Z) (exp : nat) : Z := base ^ Z.of_nat exp.

(** [mpz_invert (rop, op1, op2)] returns a status and leaves a value in
    [rop].  When the inverse of [op1] modulo [op2] exists the status is
    non-zero and [0 <= rop < |op2|]; otherwise the status is zero and GMP
    documents [rop] as undefined: the library returns before writing, so
    [rop] keeps the value it had on entry. *)
Definition mpz_invert (rop op1 op2 : Z) : bool * Z :=
  if Z.gcd op1 op2 =? 1
  then (true, Z.invmod op1 (Z.abs op2))
  else (false, rop).

(** [mpz_mod (r, n, d)]: [r = n mod |d|], always non-negative; a zero
    divisor raises GMP's division-by-zero exception (no value). *)
Definition mpz_mod (n d : Z) : option Z :=
  if d =? 0 then None else Some (n mod Z.abs d).

(** [mpz_setbit (rop, bit_index)]. *)
Definition mpz_setbit (rop : Z) (bit_index : nat) : Z :=
  Z.lor rop (Z.shiftl 1 (Z.of_nat bit_index)).

(** The random state.  The generator itself (a Mersenne twister seeded
    with the wall clock) is outside the program: a state is the sequence
    of raw numbers it is still going to produce, and a position. *)
Record gmp_randstate := RandState { raw : nat -> Z; pos : nat }.

Definition next_raw (st : gmp_randstate) : Z * gmp_randstate :=
  (raw st (pos st), RandState (raw st) (S (pos st))).

(** [mpz_urandomm (rop, state, n)]: a number in [0 .. n-1]. *)
Definition mpz_urandomm (st : gmp_randstate) (n : Z) : Z * gmp_randstate :=
  let '(r, st') := next_raw st in (r mod n, st').

(** [mpz_urandomb (rop, state, n)]: a number in [0 .. 2^n - 1]. *)
Definition mpz_urandomb (st : gmp_randstate) (n : nat) : Z * gmp_randstate :=
  let '(r, st') := next_raw st in (r mod 2 ^ Z.of_nat n, st').

(** [mpz_nextprime (rop, op)]: the next prime greater than [op].  GMP
    steps through the candidates above [op] and keeps the first one that
    passes its primality test; the test is modelled by trial division
    and the unbounded loop by a search with [fuel] candidates. *)
Fixpoint no_divisor_from (fuel : nat) (d n : Z) : bool :=
  match fuel with
  | O => false
  | S fuel =>
      if n <? d * d then true
      else if n mod d =? 0 then false
      else no_divisor_from fuel (d + 1) n
  end.

Definition is_prime (n : Z) : bool :=
  (1 <? n) && no_divisor_from (Z.to_nat (Z.sqrt n)) 2 n.

Fixpoint nextprime_search (fuel : nat) (n : Z) : option Z :=
  match fuel with
  | O => None
  | S fuel => if is_prime (n + 1) then Some (n + 1)
              else nextprime_search fuel (n + 1)
  end.

Definition mpz_nextprime (fuel : nat) (op : Z) : option Z :=
  if op <? 2 then Some 2 else nextprime_search fuel op.

End GMP.

Import GMP.

(** ** [src/main.cpp] *)

Definition BITSTRENGTH : nat := 14.

(** [generate_prime (num, bit_strength, gmpRandState)]: a random number of
    [bit_strength] bits, made odd, then moved to the next prime. *)
Definition generate_prime (fuel : nat) (bit_strength : nat) (st : gmp_randstate)
    : option (Z * gmp_randstate) :=
  let '(num, st) := mpz_urandomb st bit_strength in
  let num := mpz_setbit num 0 in
  match mpz_nextprime fuel num with
  | Some num => Some (num, st)
  | None => None
  end.

(** [generate_secret]: a random secret within the range [[0, prime)]. *)
Definition generate_secret (prime : Z) (st : gmp_randstate) : Z * gmp_randstate :=
  mpz_urandomm st prime.

(** [generate_coefficients]: cells [0 .. change-2] receive random field
    elements, cell [change-1] receives the secret.  (With [change = 0] the
    source writes cell [-1]; the specification has a threshold of at least 1.) *)
Definition generate_coefficients (coefficients : list Z) (prime : Z)
    (change : nat) (secret : Z) (st : gmp_randstate) : list Z * gmp_randstate :=
  let '(coefficients, st) :=
    fold_left (fun '(cs, st) i =>
                 let '(c, st') := mpz_urandomm st prime in (<[i := c]> cs, st'))
              (seq 0 (change - 1)) (coefficients, st) in
  (<[(change - 1)%nat := secret]> coefficients, st).

(** [compute_shares (x, y, coefficients, change)]: the share of one user.
    [y] is set to 0, then every term [coefficients[j] * x^j] is added.
    There is no modulus among the parameters. *)
Definition compute_shares (x : Z) (coefficients : list Z) (change : nat) : Z :=
  fold_left (fun y j =>
               let temp := mpz_pow_ui x j in
               let temp := temp * (coefficients !!! j) in
               y + temp)
            (seq 0 change) 0.

(** [compute_lagrange_coefficients (alphas, x, k, prime)]: for every
    [i < k] the cell [alphas[i]] is set to 1, then multiplied by what
    [mpz_invert] left in [temp], for every [j <> i].  The status returned
    by [mpz_invert] is dropped. *)
Definition compute_lagrange_coefficients (alphas : list Z) (x : list Z)
    (k : nat) (prime : Z) : list Z :=
  fold_left (fun alphas i =>
               let alphas := <[i := 1]> alphas in
               fold_left (fun alphas j =>
                            if decide (j ≠ i) then
                              let temp := (x !!! j) - (x !!! i) in
                              let temp := snd (mpz_invert temp temp prime) in
                              <[i := (alphas !!! i) * temp]> alphas
                            else alphas)
                         (seq 0 k) alphas)
            (seq 0 k) alphas.

(** [reconstruct_secret (reconstructedSecret, alphas, shares, k, p)]:
    the sum of [alphas[i] * shares[i]], reduced modulo [p] at the end. *)
Definition reconstruct_secret (alphas : list Z) (shares : list Z) (k : nat)
    (p : Z) : option Z :=
  let reconstructedSecret :=
    fold_left (fun acc i =>
                 let temp := (alphas !!! i) * (shares !!! i) in
                 acc + temp)
              (seq 0 k) 0 in
  mpz_mod reconstructedSecret p.

(** Step 5 of [main]: the coefficients are computed into a fresh vector of
    [k] cells, then the shares are recombined. *)
Definition reconstruct (x y : list Z) (k : nat) (p : Z) : option Z :=
  let alphas := compute_lagrange_coefficients (replicate k 0) x k p in
  reconstruct_secret alphas y k p.

(** What [main] prints when [DEBUG] is set: the prime, the secret, the
    coefficients, the logins and shares of the users, and the
    reconstructed secret. *)
Record run := Run {
  run_p : Z; run_S : Z; run_a : list Z;
  run_x : list Z; run_y : list Z; run_Sr : Z }.

(** [main] of [src/main.cpp], for the seed behind [gmpRandState].  The
    vectors are created with zeroed cells.  The coefficients are not drawn:
    cells [0 .. k-2] are initialised to 0, cell [k-1] to the secret.
    ([S] is the successor of [nat], so the secret is named [secret].) *)
Definition main (fuel : nat) (gmpRandState : gmp_randstate) : option run :=
  let n := 4%nat in
  let k := 3%nat in
  let a := replicate k 0 in
  let alphas := replicate k 0 in
  let x := replicate n 0 in
  let y := replicate n 0 in
  match generate_prime fuel BITSTRENGTH gmpRandState with
  | None => None
  | Some (p, gmpRandState) =>
      let '(secret, gmpRandState) := generate_secret p gmpRandState in
      let a := fold_left (fun a i => <[i := 0]> a) (seq 0 (k - 1)) a in
      let a := <[(k - 1)%nat := secret]> a in
      let x := fold_left (fun x i => <[i := Z.of_nat (i + 1)]> x) (seq 0 n) x in
      let y := fold_left (fun y i => <[i := compute_shares (x !!! i) a k]> y)
                         (seq 0 n) y in
      let alphas := compute_lagrange_coefficients alphas x k p in
      match reconstruct_secret alphas y k p with
      | None => None
      | Some Sr => Some (Run p secret a x y Sr)
      end
  end.

(** ** [src/unnamed/part_000] *)

Module Batch.

(** The batch [compute_shares (x, y, coefficients, k)]: the outer loop
    runs over [i < k], the threshold; the cell [y[i]] is set to 0, then
    every term [coefficients[j] * x[i]^j] is added to it. *)
Definition compute_shares (x y : list Z) (coefficients : list Z) (k : nat) : list Z :=
  fold_left (fun y i =>
               let y := <[i := 0]> y in
               fold_left (fun y j =>
                            let temp := mpz_pow_ui (x !!! i) j in
                            let temp := temp * (coefficients !!! j) in
                            <[i := (y !!! i) + temp]> y)
                         (seq 0 k) y)
            (seq 0 k) y.

(** [main] of [src/unnamed/part_000]: the coefficients are drawn by
    [generate_coefficients] (cell [k-1] is then set to the secret once
    more), the logins are [2, 4, 6, 8], and the shares are computed by the
    batch [compute_shares], called with the threshold [k]. *)
Definition main (fuel : nat) (gmpRandState : gmp_randstate) : option run :=
  let n := 4%nat in
  let k := 3%nat in
  let a := replicate k 0 in
  let alphas := replicate k 0 in
  let x := replicate n 0 in
  let y := replicate n 0 in
  match generate_prime fuel BITSTRENGTH gmpRandState with
  | None => None
  | Some (p, gmpRandState) =>
      let '(secret, gmpRandState) := generate_secret p gmpRandState in
      let '(a, gmpRandState) := generate_coefficients a p k secret gmpRandState in
      let a := <[(k - 1)%nat := secret]> a in
      let x := fold_left (fun x i => <[i := Z.of_nat ((i + 1) * 2)]> x) (seq 0 n) x in
      let y := compute_shares x y a k in
      let alphas := compute_lagrange_coefficients alphas x k p in
      match reconstruct_secret alphas y k p with
      | None => None
      | Some Sr => Some (Run p secret a x y Sr)
      end
  end.

End Batch.

(** * Auxiliary notions *)

(** ** Congruence modulo [p] *)

Definition cong (p a b : Z) : Prop := a mod p = b mod p.

Notation "a ≡[ p ] b" := (cong p a b) (at level 70, no associativity).

(** ** Loops *)

(** The value accumulated by a loop [for (i = 0; i < n; i++) acc += f i]. *)
Fixpoint bigsum (f : nat -> Z) (n : nat) : Z :=
  match n with
  | O => 0
  | S n => bigsum f n + f n
  end.

(** The array left by a loop [for (i = 0; i < k; i++) l[i] = f i]. *)
Definition fill {A : Type} (f : nat -> A) (k : nat) (l : list A) : list A :=
  fold_left (fun l i => <[i := f i]> l) (seq 0 k) l.

(** [f] holds of every number in [[0, n)]. *)
Fixpoint all_below (f : Z -> bool) (n : nat) : bool :=
  match n with
  | O => true
  | S n => f (Z.of_nat n) && all_below f n
  end.

(** ** Interpolation *)

(** The value that the inner loop of [compute_lagrange_coefficients]
    accumulates in the cell [alphas[i]]. *)
Definition lagrange_coefficient (x : list Z) (k : nat) (prime : Z) (i : nat) : Z :=
  fold_left (fun alpha j =>
               if decide (j ≠ i) then
                 let temp := (x !!! j) - (x !!! i) in
                 let temp := snd (mpz_invert temp temp prime) in
                 alpha * temp
               else alpha)
            (seq 0 k) 1.

(** The value multiplied into [alphas[i]] for the difference [d]. *)
Definition inverted (p d : Z) : Z := snd (mpz_invert d d p).

(** The product accumulated in [alphas[i]]: one inverted difference for
    each of the other nodes. *)
Fixpoint weight (p xi : Z) (others : list Z) : Z :=
  match others with
  | [] => 1
  | xj :: others => weight p xi others * inverted p (xj - xi)
  end.

(** The weighted sum [Σ_i weight_i * g (x_i)] over a list of nodes, by
    recursion on the list: the head node takes the remaining nodes as
    others, and it becomes one more factor for each of them. *)
Fixpoint wsum (p : Z) (g : Z -> Z) (nodes : list Z) : Z :=
  match nodes with
  | [] => 0
  | z :: nodes =>
      weight p z nodes * g z + wsum p (fun y => inverted p (z - y) * g y) nodes
  end.

Definition monomial (m : nat) : Z -> Z := fun y => y ^ Z.of_nat m.

(** Nodes that are pairwise distinct as elements of Z/pZ. *)
Definition distinct_mod (p : Z) (nodes : list Z) : Prop :=
  NoDup ((fun x => x mod p) <$> nodes).

(** The shares handed to the participants [xs]: pairs [(x, y)]. *)
Definition share_set (xs : list Z) (a : list Z) (k : nat) : list (Z * Z) :=
  (fun x => (x, compute_shares x a k)) <$> xs.

(** Reconstruction from a chosen list of shares. *)
Definition reconstruct_from (sub : list (Z * Z)) (k : nat) (p : Z) : option Z :=
  reconstruct (sub.*1) (sub.*2) k p.

(** ** Specification-side notions *)

(** [Σ_j a[j] * x^j], the exponent of the head coefficient being [j]. *)
Fixpoint polynomial_from (j : nat) (a : list Z) (x : Z) : Z :=
  match a with
  | [] => 0
  | c :: a => c * x ^ Z.of_nat j + polynomial_from (S j) a x
  end.

(** The polynomial [Σ_{j=0}^{k-1} a[j] * x^j] of a coefficient sequence. *)
Definition polynomial (a : list Z) (x : Z) : Z := polynomial_from 0 a x.

(** [v] is the inverse of [d] in Z/pZ, as a field element of [[0, p)]. *)
Definition is_inverse (p d v : Z) : Prop := 0 <= v < p /\ (v * d) mod p = 1.

Definition product (l : list Z) : Z := foldr Z.mul 1 l.

(** A run of the random generator: the raw numbers behind the prime 17,
    the secret 5 and the coefficients 3 and 2. *)
Definition demo_state : gmp_randstate :=
  RandState (fun n => default 0 ([15; 5; 3; 2] !! n)) 0.

(** * Proofs *)

(** ** Congruence modulo [p] *)

#[export] Instance cong_equivalence p : Equivalence (cong p).
Proof. unfold cong. split; red; intros; congruence. Qed.

#[export] Instance cong_add p : Proper (cong p ==> cong p ==> cong p) Z.add.
Proof.
  unfold cong. intros a a' Ha b b' Hb.
  rewrite (Zplus_mod a b), (Zplus_mod a' b'), Ha, Hb. reflexivity.
Qed.

#[export] Instance cong_sub p : Proper (cong p ==> cong p ==> cong p) Z.sub.
Proof.
  unfold cong. intros a a' Ha b b' Hb.
  rewrite (Zminus_mod a b), (Zminus_mod a' b'), Ha, Hb. reflexivity.
Qed.

#[export] Instance cong_mul p : Proper (cong p ==> cong p ==> cong p) Z.mul.
Proof.
  unfold cong. intros a a' Ha b b' Hb.
  rewrite (Zmult_mod a b), (Zmult_mod a' b'), Ha, Hb. reflexivity.
Qed.

Lemma cong_eq p a b : a = b -> a ≡[p] b.
Proof. intros ->. reflexivity. Qed.

Lemma cong_mod p a : a mod p ≡[p] a.
Proof. unfold cong. apply Zmod_mod. Qed.

(** ** What [mpz_invert] leaves in [temp] *)

Section Inverse.
Context (p : Z) (Hp : Z.prime p).

Lemma prime_pos : 2 <= p.
Proof. destruct Hp as [H _]. lia. Qed.

Lemma coprime_of_nonzero d : d mod p ≠ 0 -> Z.gcd d p = 1.
Proof.
  pose proof prime_pos. intros Hd. rewrite Z.gcd_comm.
  apply Z.coprime_prime_l; [exact Hp|].
  intros Hdiv. apply Hd. apply Z.mod_divide; [lia|exact Hdiv].
Qed.

Lemma inverted_invmod d : d mod p ≠ 0 -> inverted p d = Z.invmod d p.
Proof.
  pose proof prime_pos. intros Hd. unfold inverted, mpz_invert.
  rewrite (coprime_of_nonzero d Hd). simpl. rewrite Z.abs_eq by lia. reflexivity.
Qed.

Lemma inverted_range d : d mod p ≠ 0 -> 0 < inverted p d < p.
Proof.
  pose proof prime_pos. intros Hd. rewrite inverted_invmod by exact Hd.
  pose proof (Z.invmod_prime d p Hp Hd) as Hinv.
  assert (0 <= Z.invmod d p < p) as Hr.
  { unfold Z.invmod. apply Z.mod_pos_bound. lia. }
  destruct (Z.eq_dec (Z.invmod d p) 0) as [E|]; [|lia].
  rewrite E in Hinv. simpl in Hinv. rewrite Z.mod_0_l in Hinv by lia. lia.
Qed.

Lemma inverted_spec d : d mod p ≠ 0 -> inverted p d * d ≡[p] 1.
Proof.
  pose proof prime_pos. intros Hd. rewrite inverted_invmod by exact Hd.
  unfold cong. rewrite (Z.invmod_prime d p Hp Hd). rewrite Z.mod_1_l by lia.
  reflexivity.
Qed.

Lemma cong_cancel d a : d mod p ≠ 0 -> d * a ≡[p] 0 -> a ≡[p] 0.
Proof.
  intros Hd H.
  assert (inverted p d * (d * a) ≡[p] a) as <-.
  { rewrite Z.mul_assoc, (inverted_spec d Hd), Z.mul_1_l. reflexivity. }
  rewrite H, Z.mul_0_r. reflexivity.
Qed.

End Inverse.

(** ** Sums over loop indices *)

Lemma fold_left_bigsum (f : nat -> Z) n :
  fold_left (fun acc i => acc + f i) (seq 0 n) 0 = bigsum f n.
Proof.
  induction n as [|n IH]; [reflexivity|].
  rewrite seq_S, fold_left_app, IH. reflexivity.
Qed.

Lemma bigsum_ext f g n :
  (forall i, (i < n)%nat -> f i = g i) -> bigsum f n = bigsum g n.
Proof.
  induction n as [|n IH]; intros H; [reflexivity|].
  simpl. rewrite IH, H by (intros; try apply H; lia). reflexivity.
Qed.

Lemma bigsum_shift f n : bigsum f (S n) = f O + bigsum (fun i => f (S i)) n.
Proof.
  induction n as [|n IH]; [simpl; lia|].
  change (bigsum f (S (S n))) with (bigsum f (S n) + f (S n)).
  rewrite IH. simpl. lia.
Qed.

Lemma bigsum_scale c f n : bigsum (fun i => c * f i) n = c * bigsum f n.
Proof. induction n as [|n IH]; simpl; [lia|]. rewrite IH. lia. Qed.

Lemma bigsum_cong p f g n :
  (forall i, (i < n)%nat -> f i ≡[p] g i) -> bigsum f n ≡[p] bigsum g n.
Proof.
  induction n as [|n IH]; intros H; [reflexivity|].
  simpl. rewrite IH, H by (intros; try apply H; lia). reflexivity.
Qed.

(** ** The interpolation weights *)

Lemma lagrange_fold p (x : list Z) i js acc :
  fold_left (fun alpha j =>
               if decide (j ≠ i) then
                 let temp := (x !!! j) - (x !!! i) in
                 let temp := snd (mpz_invert temp temp p) in
                 alpha * temp
               else alpha) js acc
  = acc * weight p (x !!! i) ((fun j => x !!! j) <$> filter (fun j => j ≠ i) js).
Proof.
  revert acc. induction js as [|j js IH]; intros acc; [simpl; ring|].
  rewrite filter_cons. cbn [fold_left]. rewrite IH.
  destruct (decide (j ≠ i)); [|reflexivity].
  rewrite fmap_cons. cbn [weight]. unfold inverted. cbv zeta. ring.
Qed.

Lemma fmap_lookup_seq (x : list Z) k :
  (k <= length x)%nat -> (fun j => x !!! j) <$> seq 0 k = take k x.
Proof.
  revert k. induction x as [|a x IH]; intros [|k] Hk; simpl in *; try lia; try reflexivity.
  rewrite <- seq_shift, <- list_fmap_compose. f_equal. apply IH. lia.
Qed.

Lemma filter_ne_O (l : list nat) : filter (fun j => j ≠ O) (S <$> l) = S <$> l.
Proof.
  induction l as [|a l IH]; [reflexivity|].
  rewrite fmap_cons, filter_cons_True by lia. rewrite IH. reflexivity.
Qed.

Lemma filter_ne_S i (l : list nat) :
  filter (fun j => j ≠ S i) (S <$> l) = S <$> filter (fun j => j ≠ i) l.
Proof.
  induction l as [|a l IH]; [reflexivity|].
  rewrite fmap_cons, !filter_cons, IH.
  destruct (decide (S a ≠ S i)), (decide (a ≠ i)); try lia; reflexivity.
Qed.

Lemma others_delete (x : list Z) k i :
  (i < k <= length x)%nat ->
  (fun j => x !!! j) <$> filter (fun j => j ≠ i) (seq 0 k) = delete i (take k x).
Proof.
  revert k i. induction x as [|a x IH]; intros [|k] i Hk; simpl in *; try lia.
  rewrite <- seq_shift. change (map S ?l) with (S <$> l). destruct i as [|i].
  - rewrite filter_cons_False by lia. rewrite filter_ne_O.
    rewrite <- list_fmap_compose.
    simpl. apply fmap_lookup_seq. lia.
  - rewrite filter_cons_True by lia. rewrite fmap_cons. simpl. f_equal.
    rewrite filter_ne_S, <- list_fmap_compose.
    rewrite <- (IH k i) by lia. reflexivity.
Qed.

Lemma lagrange_coefficient_weight p (x : list Z) k i :
  (i < k <= length x)%nat ->
  lagrange_coefficient x k p i = weight p (x !!! i) (delete i (take k x)).
Proof.
  intros H. unfold lagrange_coefficient.
  rewrite lagrange_fold, others_delete by exact H. ring.
Qed.

(** ** Loops that fill an array *)

Section FillLoop.
Context {A : Type} (f : nat -> A).

Lemma fill_S k l : fill f (S k) l = <[k := f k]> (fill f k l).
Proof. unfold fill. rewrite seq_S, fold_left_app. reflexivity. Qed.

Lemma length_fill k l : length (fill f k l) = length l.
Proof.
  induction k as [|k IH]; [reflexivity|].
  rewrite fill_S, length_insert. exact IH.
Qed.

Lemma fill_lookup_lt k l i :
  (i < k)%nat -> (i < length l)%nat -> fill f k l !! i = Some (f i).
Proof.
  induction k as [|k IH]; intros Hk Hl; [lia|].
  rewrite fill_S. destruct (decide (i = k)) as [->|Hne].
  - apply list_lookup_insert_eq. rewrite length_fill. exact Hl.
  - rewrite list_lookup_insert_ne by congruence. apply IH; lia.
Qed.

Lemma fill_lookup_ge k l i : (k <= i)%nat -> fill f k l !! i = l !! i.
Proof.
  induction k as [|k IH]; intros Hk; [reflexivity|].
  rewrite fill_S, list_lookup_insert_ne by lia. apply IH. lia.
Qed.

End FillLoop.

(** A loop that accumulates in one cell of an array. *)
Lemma insert_lookup_total_id (l : list Z) i : <[i := l !!! i]> l = l.
Proof.
  destruct (l !! i) as [v|] eqn:E.
  - rewrite (list_lookup_total_correct _ _ _ E). apply list_insert_id, E.
  - apply list_insert_ge, lookup_ge_None, E.
Qed.

Lemma fold_left_cell {B : Type} (step : Z -> B -> Z) i (js : list B) (l : list Z) :
  fold_left (fun l j => <[i := step (l !!! i) j]> l) js l
  = <[i := fold_left step js (l !!! i)]> l.
Proof.
  revert l. induction js as [|j js IH]; intros l; cbn [fold_left].
  - symmetry. apply insert_lookup_total_id.
  - rewrite IH. destruct (decide (i < length l)%nat) as [Hlt|Hge].
    + rewrite list_lookup_total_insert_eq by exact Hlt.
      apply list_insert_insert_eq.
    + rewrite !(list_insert_ge l) by lia. reflexivity.
Qed.

Lemma fold_left_ext {A B : Type} (f g : A -> B -> A) (js : list B) (a : A) :
  (forall a j, f a j = g a j) -> fold_left f js a = fold_left g js a.
Proof.
  intros E. revert a. induction js as [|j js IH]; intros a; [reflexivity|].
  cbn [fold_left]. rewrite E. apply IH.
Qed.

Lemma fold_left_init_cell {B : Type} (step : Z -> B -> Z) i v (js : list B) (l : list Z) :
  fold_left (fun l j => <[i := step (l !!! i) j]> l) js (<[i := v]> l)
  = <[i := fold_left step js v]> l.
Proof.
  rewrite fold_left_cell. destruct (decide (i < length l)%nat) as [Hlt|Hge].
  - rewrite list_lookup_total_insert_eq by exact Hlt. apply list_insert_insert_eq.
  - rewrite !(list_insert_ge l) by lia. reflexivity.
Qed.

Lemma compute_lagrange_coefficients_fill alphas x k p :
  compute_lagrange_coefficients alphas x k p
  = fill (lagrange_coefficient x k p) k alphas.
Proof.
  unfold compute_lagrange_coefficients, fill. apply fold_left_ext.
  intros l i. cbv zeta. unfold lagrange_coefficient.
  rewrite <- fold_left_init_cell. apply fold_left_ext.
  intros l' j. destruct (decide (j ≠ i)); [reflexivity|].
  symmetry. apply insert_lookup_total_id.
Qed.

Lemma compute_shares_bigsum x coefficients change :
  compute_shares x coefficients change
  = bigsum (fun j => x ^ Z.of_nat j * (coefficients !!! j)) change.
Proof. unfold compute_shares, mpz_pow_ui. apply fold_left_bigsum. Qed.

Lemma reconstruct_secret_bigsum alphas shares k p :
  reconstruct_secret alphas shares k p
  = mpz_mod (bigsum (fun i => (alphas !!! i) * (shares !!! i)) k) p.
Proof. unfold reconstruct_secret. rewrite fold_left_bigsum. reflexivity. Qed.

(** The sum over the loop index is the weighted sum over the nodes. *)
Lemma wsum_index p g (nodes : list Z) :
  bigsum (fun i => weight p (nodes !!! i) (delete i nodes) * g (nodes !!! i))
         (length nodes)
  = wsum p g nodes.
Proof.
  revert g. induction nodes as [|z nodes IH]; intros g; [reflexivity|].
  cbn [length]. rewrite bigsum_shift. cbn [wsum]. f_equal.
  rewrite <- IH. apply bigsum_ext. intros i _. simpl. ring.
Qed.

(** What the two loops of the reconstruction compute together. *)
Lemma reconstruct_wsum (x y : list Z) k p g :
  (k <= length x)%nat ->
  (forall i, (i < k)%nat -> y !!! i = g (x !!! i)) ->
  reconstruct x y k p = mpz_mod (wsum p g (take k x)) p.
Proof.
  intros Hk Hy. unfold reconstruct.
  rewrite reconstruct_secret_bigsum, compute_lagrange_coefficients_fill.
  f_equal. rewrite <- wsum_index, length_take_le by exact Hk.
  apply bigsum_ext. intros i Hi.
  assert (fill (lagrange_coefficient x k p) k (replicate k 0) !!! i
          = lagrange_coefficient x k p i) as ->.
  { apply list_lookup_total_correct, fill_lookup_lt;
      [exact Hi | rewrite length_replicate; exact Hi]. }
  rewrite lagrange_coefficient_weight, Hy by lia.
  rewrite lookup_total_take, decide_True by exact Hi. reflexivity.
Qed.

(** ** Algebra of the weighted sum *)

Lemma wsum_ext p g h nodes :
  (forall y, g y = h y) -> wsum p g nodes = wsum p h nodes.
Proof.
  revert g h. induction nodes as [|z nodes IH]; intros g h E; [reflexivity|].
  cbn [wsum]. rewrite (E z). f_equal. apply IH. intros y. rewrite (E y). reflexivity.
Qed.

Lemma wsum_cong p g h (nodes : list Z) :
  (forall y, y ∈ nodes -> g y ≡[p] h y) -> wsum p g nodes ≡[p] wsum p h nodes.
Proof.
  revert g h. induction nodes as [|z nodes IH]; intros g h E; [reflexivity|].
  cbn [wsum]. rewrite (E z) by apply list_elem_of_here.
  apply cong_add; [reflexivity|]. apply IH. intros y Hy.
  rewrite (E y) by (apply list_elem_of_further; exact Hy). reflexivity.
Qed.

Lemma wsum_linear p c d g h nodes :
  wsum p (fun y => c * g y + d * h y) nodes = c * wsum p g nodes + d * wsum p h nodes.
Proof.
  revert g h. induction nodes as [|z nodes IH]; intros g h; cbn [wsum]; [ring|].
  rewrite (wsum_ext p (fun y => inverted p (z - y) * (c * g y + d * h y))
             (fun y => c * (inverted p (z - y) * g y) + d * (inverted p (z - y) * h y)))
    by (intros; ring).
  rewrite IH. ring.
Qed.

Lemma wsum_zero p nodes : wsum p (fun _ => 0) nodes = 0.
Proof.
  rewrite (wsum_ext p _ (fun y => 0 * 0 + 0 * 0)) by (intros; ring).
  rewrite (wsum_linear p 0 0 (fun _ => 0) (fun _ => 0)). ring.
Qed.

Lemma wsum_swap p g a b nodes :
  wsum p g (a :: b :: nodes) = wsum p g (b :: a :: nodes).
Proof.
  cbn [wsum weight].
  rewrite (wsum_ext p (fun y => inverted p (b - y) * (inverted p (a - y) * g y))
             (fun y => inverted p (a - y) * (inverted p (b - y) * g y)))
    by (intros; ring).
  ring.
Qed.

Lemma cong_sub_zero p a b : (a - b) mod p = 0 -> a mod p = b mod p.
Proof.
  intros H. change (a ≡[p] b).
  assert (a - b ≡[p] 0) as E by (unfold cong; rewrite H, Zmod_0_l; reflexivity).
  replace a with ((a - b) + b) by ring. rewrite E. reflexivity.
Qed.

Lemma distinct_mod_head p z (nodes : list Z) y :
  distinct_mod p (z :: nodes) -> y ∈ nodes -> (z - y) mod p ≠ 0.
Proof.
  unfold distinct_mod. rewrite fmap_cons, NoDup_cons. intros [Hz _] Hy E.
  apply Hz. rewrite (cong_sub_zero p z y E).
  apply list_elem_of_fmap. exists y. split; [reflexivity|exact Hy].
Qed.

Lemma distinct_mod_tail p z nodes : distinct_mod p (z :: nodes) -> distinct_mod p nodes.
Proof. unfold distinct_mod. rewrite fmap_cons, NoDup_cons. tauto. Qed.

Lemma distinct_mod_swap p a b nodes :
  distinct_mod p (a :: b :: nodes) -> distinct_mod p (b :: a :: nodes).
Proof.
  unfold distinct_mod. rewrite !fmap_cons, !NoDup_cons, !not_elem_of_cons.
  intuition congruence.
Qed.

Section Interpolation.
Context (p : Z) (Hp : Z.prime p).

(** Dropping the head node: multiplying every term by [z - x_i] cancels
    the factor the head contributed, and kills the head's own term. *)
Lemma wsum_drop_head g z nodes :
  distinct_mod p (z :: nodes) ->
  wsum p (fun y => (z - y) * g y) (z :: nodes) ≡[p] wsum p g nodes.
Proof.
  intros Hd. cbn [wsum].
  replace (weight p z nodes * ((z - z) * g z)) with 0 by ring.
  rewrite Z.add_0_l. apply wsum_cong. intros y Hy.
  rewrite Z.mul_assoc.
  rewrite (inverted_spec p Hp (z - y) (distinct_mod_head p z nodes y Hd Hy)).
  rewrite Z.mul_1_l. reflexivity.
Qed.

Lemma wsum_monomial_step m z nodes :
  distinct_mod p (z :: nodes) ->
  z * wsum p (monomial m) (z :: nodes) - wsum p (monomial (S m)) (z :: nodes)
  ≡[p] wsum p (monomial m) nodes.
Proof.
  intros Hd. rewrite <- (wsum_drop_head (monomial m) z nodes Hd).
  rewrite (wsum_ext p (fun y => (z - y) * monomial m y)
             (fun y => z * monomial m y + (-1) * monomial (S m) y)).
  - rewrite wsum_linear. apply cong_eq. ring.
  - intros y. unfold monomial. rewrite Nat2Z.inj_succ, Z.pow_succ_r by lia. ring.
Qed.

(** The weighted sum of a monomial over [n+1] nodes: it vanishes below
    degree [n], and it is [(-1)^n] at degree [n]. *)
Lemma wsum_monomial n :
  forall nodes, length nodes = S n -> distinct_mod p nodes ->
  forall m, (m <= n)%nat ->
  wsum p (monomial m) nodes ≡[p] (if decide (m = n) then (-1) ^ Z.of_nat n else 0).
Proof.
  induction n as [|n IH]; intros nodes Hlen Hd m Hm.
  - destruct nodes as [|x [|? ?]]; try discriminate.
    assert (m = O) as -> by lia. rewrite decide_True by reflexivity.
    apply cong_eq. cbn [wsum weight]. unfold monomial.
    change (Z.of_nat 0) with 0. rewrite !Z.pow_0_r. ring.
  - destruct nodes as [|a [|b rest]]; try discriminate.
    assert (length (b :: rest) = S n) as Hlb by (simpl in *; lia).
    assert (length (a :: rest) = S n) as Hla by (simpl in *; lia).
    pose proof (distinct_mod_tail _ _ _ Hd) as Hdb.
    pose proof (distinct_mod_tail _ _ _ (distinct_mod_swap _ _ _ _ Hd)) as Hda.
    pose proof (fun m => wsum_monomial_step m a (b :: rest) Hd) as Ea.
    pose proof (fun m => wsum_monomial_step m b (a :: rest)
                           (distinct_mod_swap _ _ _ _ Hd)) as Eb.
    setoid_rewrite (wsum_swap p _ b a rest) in Eb.
    assert (forall m', (m' <= n)%nat ->
              wsum p (monomial m') (a :: b :: rest) ≡[p] 0) as Hlow.
    { intros m' Hm'. apply (cong_cancel p Hp (a - b)).
      - apply (distinct_mod_head p a (b :: rest) b Hd), list_elem_of_here.
      - replace ((a - b) * wsum p (monomial m') (a :: b :: rest))
          with ((a * wsum p (monomial m') (a :: b :: rest)
                 - wsum p (monomial (S m')) (a :: b :: rest))
                - (b * wsum p (monomial m') (a :: b :: rest)
                   - wsum p (monomial (S m')) (a :: b :: rest))) by ring.
        rewrite Ea, Eb.
        rewrite (IH _ Hlb Hdb m' Hm'), (IH _ Hla Hda m' Hm').
        apply cong_eq. ring. }
    destruct (decide (m = S n)) as [->|Hne]; [|apply Hlow; lia].
    replace (wsum p (monomial (S n)) (a :: b :: rest))
      with (a * wsum p (monomial n) (a :: b :: rest)
            - (a * wsum p (monomial n) (a :: b :: rest)
               - wsum p (monomial (S n)) (a :: b :: rest))) by ring.
    rewrite Ea, (Hlow n) by lia.
    rewrite (IH _ Hlb Hdb n) by lia. rewrite decide_True by reflexivity.
    apply cong_eq. rewrite Nat2Z.inj_succ, Z.pow_succ_r by lia. ring.
Qed.

(** The weighted sum of the values of a polynomial with [n+1]
    coefficients over [n+1] nodes picks its leading coefficient. *)
Lemma wsum_polynomial (a : list Z) n nodes :
  length nodes = S n -> distinct_mod p nodes ->
  wsum p (fun x => compute_shares x a (S n)) nodes
  ≡[p] (-1) ^ Z.of_nat n * (a !!! n).
Proof.
  intros Hlen Hd.
  assert (forall t, wsum p (fun x => compute_shares x a t) nodes
                    = bigsum (fun j => (a !!! j) * wsum p (monomial j) nodes) t) as E.
  { induction t as [|t IH].
    - apply wsum_zero.
    - cbn [bigsum]. rewrite <- IH.
      rewrite (wsum_ext p _ (fun x => 1 * compute_shares x a t
                                      + (a !!! t) * monomial t x)).
      + rewrite wsum_linear. ring.
      + intros x. rewrite !compute_shares_bigsum. cbn [bigsum].
        unfold monomial. ring. }
  rewrite E. cbn [bigsum].
  rewrite (bigsum_cong p _ (fun _ => 0)).
  - rewrite (wsum_monomial n nodes Hlen Hd n) by lia.
    rewrite decide_True by reflexivity.
    apply cong_eq. rewrite (bigsum_scale 0 (fun _ => 0) n) at 1. ring.
  - intros j Hj. rewrite (wsum_monomial n nodes Hlen Hd j) by lia.
    rewrite decide_False by lia. apply cong_eq. ring.
Qed.

End Interpolation.

(** ** The value returned by the reconstruction *)

(** For a prime [p] and [k >= 1] nodes that are pairwise distinct in Z/pZ,
    recombining the shares of a polynomial with [k] coefficients yields
    its coefficient of index [k-1], up to the sign [(-1)^(k-1)]. *)
Lemma reconstruct_value p k (x y a : list Z) :
  Z.prime p -> (1 <= k <= length x)%nat -> distinct_mod p (take k x) ->
  (forall i, (i < k)%nat -> y !!! i = compute_shares (x !!! i) a k) ->
  reconstruct x y k p
  = Some (((-1) ^ Z.of_nat (k - 1) * (a !!! (k - 1)%nat)) mod p).
Proof.
  intros Hp Hk Hd Hy. pose proof (prime_pos p Hp) as Hpos.
  rewrite (reconstruct_wsum x y k p (fun v => compute_shares v a k)) by (auto; lia).
  unfold mpz_mod. destruct (Z.eqb_spec p 0) as [?|_]; [lia|].
  rewrite Z.abs_eq by lia. f_equal.
  destruct k as [|n]; [lia|]. replace (S n - 1)%nat with n by lia.
  apply (wsum_polynomial p Hp a n (take (S n) x)); [|exact Hd].
  apply length_take_le. lia.
Qed.

Lemma reconstruct_from_value p k xs a (sub : list (Z * Z)) :
  Z.prime p -> (1 <= k)%nat -> length sub = k ->
  sub ⊆ share_set xs a k -> distinct_mod p (sub.*1) ->
  reconstruct_from sub k p
  = Some (((-1) ^ Z.of_nat (k - 1) * (a !!! (k - 1)%nat)) mod p).
Proof.
  intros Hp Hk Hlen Hsub Hd. unfold reconstruct_from.
  apply reconstruct_value; auto.
  - rewrite length_fmap. lia.
  - rewrite firstn_all2 by (rewrite length_fmap; lia). exact Hd.
  - intros i Hi.
    destruct (lookup_lt_is_Some_2 sub i ltac:(lia)) as [[xi yi] Hs].
    rewrite (list_lookup_total_correct (sub.*1) i xi)
      by (rewrite list_lookup_fmap, Hs; reflexivity).
    rewrite (list_lookup_total_correct (sub.*2) i yi)
      by (rewrite list_lookup_fmap, Hs; reflexivity).
    assert ((xi, yi) ∈ share_set xs a k) as Hin.
    { apply Hsub. eapply list_elem_of_lookup_2. exact Hs. }
    unfold share_set in Hin. apply list_elem_of_fmap in Hin as (x' & E & _).
    inversion E. reflexivity.
Qed.

(** Identifiers in [[0, p)] that are pairwise distinct are pairwise distinct
    in Z/pZ. *)
Lemma distinct_mod_of_range p (xs : list Z) :
  Forall (fun x => 0 <= x < p) xs -> NoDup xs -> distinct_mod p xs.
Proof.
  intros Hr Hn. unfold distinct_mod.
  rewrite (Forall_fmap_ext_1 (fun x => x mod p) id xs).
  - rewrite list_fmap_id. exact Hn.
  - eapply Forall_impl; [exact Hr|]. intros x Hx. apply Z.mod_small. exact Hx.
Qed.

Lemma pow_m1_double n : (-1) ^ Z.of_nat (2 * n) = 1.
Proof.
  rewrite Nat2Z.inj_mul, Z.pow_mul_r by lia.
  change ((-1) ^ Z.of_nat 2) with 1. apply Z.pow_1_l. lia.
Qed.

(** With an odd threshold the reconstruction returns the last coefficient
    of the polynomial, where the builder stores the secret. *)
Lemma roundtrip_odd_threshold p k xs a (sub : list (Z * Z)) secret :
  Z.prime p -> Nat.Odd k -> 0 <= secret < p -> a !!! (k - 1)%nat = secret ->
  length sub = k -> sub ⊆ share_set xs a k -> distinct_mod p (sub.*1) ->
  reconstruct_from sub k p = Some secret.
Proof.
  intros Hp [m ->] Hs Ha Hlen Hsub Hd.
  rewrite (reconstruct_from_value p (2 * m + 1) xs a sub Hp ltac:(lia) Hlen Hsub Hd).
  replace (2 * m + 1 - 1)%nat with (2 * m)%nat in * by lia.
  rewrite pow_m1_double, Z.mul_1_l, Ha, Z.mod_small by exact Hs. reflexivity.
Qed.

(** With an even threshold it returns the opposite of that coefficient. *)
Lemma roundtrip_even_threshold p k xs a (sub : list (Z * Z)) secret :
  Z.prime p -> Nat.Even k -> (1 <= k)%nat -> a !!! (k - 1)%nat = secret ->
  length sub = k -> sub ⊆ share_set xs a k -> distinct_mod p (sub.*1) ->
  reconstruct_from sub k p = Some ((- secret) mod p).
Proof.
  intros Hp [m ->] Hk Ha Hlen Hsub Hd.
  rewrite (reconstruct_from_value p (2 * m) xs a sub Hp Hk Hlen Hsub Hd).
  replace (2 * m - 1)%nat with (S (2 * (m - 1)))%nat in * by lia.
  rewrite Nat2Z.inj_succ, Z.pow_succ_r, pow_m1_double, Ha by lia.
  replace (-1 * 1 * secret) with (- secret) by ring. reflexivity.
Qed.

(** ** Primes *)

Lemma no_divisor_from_sound fuel d n :
  0 <= d -> no_divisor_from fuel d n = true ->
  forall e, d <= e -> e * e <= n -> n mod e <> 0.
Proof.
  revert d. induction fuel as [|fuel IH]; intros d Hd; simpl; [discriminate|].
  destruct (Z.ltb_spec n (d * d)) as [Hlt|Hge].
  - intros _ e He Hee.
    assert (d * d <= e * e) by (apply Z.mul_le_mono_nonneg; lia). lia.
  - destruct (Z.eqb_spec (n mod d) 0) as [|Hne]; [discriminate|].
    intros H e He Hee. destruct (Z.eq_dec e d) as [->|]; [exact Hne|].
    apply (IH (d + 1) ltac:(lia) H); lia.
Qed.

Lemma is_prime_sound n : is_prime n = true -> Z.prime n.
Proof.
  unfold is_prime. rewrite andb_true_iff.
  intros [Hn Hall]. apply Z.ltb_lt in Hn. split; [exact Hn|].
  intros d Hd [q Hq].
  pose proof (no_divisor_from_sound _ 2 _ ltac:(lia) Hall) as Hnd.
  assert (0 < q) as Hq0 by nia.
  assert (q <> 1) as Hq1 by (intros ->; lia).
  destruct (Z_le_gt_dec d q).
  - apply (Hnd d); [lia| |rewrite Hq; apply Z_mod_mult].
    rewrite Hq. apply Z.mul_le_mono_nonneg_r; lia.
  - apply (Hnd q); [lia| |rewrite Hq, Z.mul_comm; apply Z_mod_mult].
    rewrite Hq. apply Z.mul_le_mono_nonneg_l; lia.
Qed.

Lemma nextprime_search_sound fuel n q :
  nextprime_search fuel n = Some q -> Z.prime q /\ n < q.
Proof.
  revert n. induction fuel as [|fuel IH]; intros n; simpl; [discriminate|].
  destruct (is_prime (n + 1)) eqn:E.
  - intros [= <-]. split; [apply is_prime_sound; exact E|lia].
  - intros H. apply IH in H. split; [tauto|lia].
Qed.

Lemma mpz_nextprime_sound fuel op q :
  mpz_nextprime fuel op = Some q -> Z.prime q /\ op < q.
Proof.
  unfold mpz_nextprime. destruct (Z.ltb_spec op 2).
  - intros [= <-]. split; [apply is_prime_sound; reflexivity|lia].
  - apply nextprime_search_sound.
Qed.

Lemma generate_prime_sound fuel bits st p st' :
  generate_prime fuel bits st = Some (p, st') -> Z.prime p.
Proof.
  unfold generate_prime. destruct (mpz_urandomb st bits) as [num st1].
  destruct (mpz_nextprime fuel (mpz_setbit num 0)) as [q|] eqn:E; [|discriminate].
  intros [= <- _]. apply (mpz_nextprime_sound _ _ _ E).
Qed.

Lemma all_below_spec f n :
  all_below f n = true -> forall z, 0 <= z < Z.of_nat n -> f z = true.
Proof.
  induction n as [|n IH]; simpl; intros H z Hz; [lia|].
  apply andb_true_iff in H as [H1 H2].
  destruct (Z.eq_dec z (Z.of_nat n)) as [->|]; [exact H1|]. apply IH; [exact H2|lia].
Qed.

(** The exhaustive search behind the bit strength of the program. *)
Lemma nextprime_14_bits num :
  0 <= num < 2 ^ Z.of_nat BITSTRENGTH ->
  exists q, mpz_nextprime 100 (mpz_setbit num 0) = Some q /\ q <= 16411.
Proof.
  assert (all_below (fun num => match mpz_nextprime 100 (mpz_setbit num 0) with
                                | Some q => q <=? 16411
                                | None => false
                                end)
                    (2 ^ BITSTRENGTH) = true) as Hall
    by (vm_cast_no_check (eq_refl true)).
  intros Hr. pose proof (all_below_spec _ _ Hall num) as Hnum.
  rewrite Nat2Z.inj_pow in Hnum. specialize (Hnum Hr).
  destruct (mpz_nextprime 100 (mpz_setbit num 0)) as [q|]; [|discriminate].
  exists q. split; [reflexivity|]. apply Z.leb_le, Hnum.
Qed.

(** At the bit strength of the program, a hundred candidates are always
    enough: [generate_prime] returns for every random state. *)
Lemma generate_prime_returns st :
  exists p st', generate_prime 100 BITSTRENGTH st = Some (p, st').
Proof.
  unfold generate_prime, mpz_urandomb, next_raw.
  set (num := raw st (pos st) mod 2 ^ Z.of_nat BITSTRENGTH).
  destruct (nextprime_14_bits num) as (q & Hq & _).
  { apply Z.mod_pos_bound. reflexivity. }
  rewrite Hq. eauto.
Qed.

(** ** The builder *)

Lemma generate_coefficients_loop prime n :
  forall cs st,
  let r := fold_left (fun '(cs, st) i =>
                        let '(c, st') := mpz_urandomm st prime in (<[i := c]> cs, st'))
                     (seq 0 n) (cs, st) in
  length r.1 = length cs /\
  (forall j, (n <= j)%nat -> r.1 !! j = cs !! j) /\
  (0 < prime -> forall j c, (j < n)%nat -> r.1 !! j = Some c -> 0 <= c < prime).
Proof.
  induction n as [|n IH]; intros cs st.
  - simpl. split; [reflexivity|]. split; [reflexivity|]. intros _ j c Hj. lia.
  - rewrite seq_S, fold_left_app. specialize (IH cs st).
    destruct (fold_left _ (seq 0 n) (cs, st)) as [cs' st'].
    cbn [fold_left Nat.add]. unfold mpz_urandomm, next_raw. cbn [fst snd] in *.
    destruct IH as (Hlen & Hhigh & Hlow). split; [|split].
    + rewrite length_insert. exact Hlen.
    + intros j Hj. rewrite list_lookup_insert_ne by lia. apply Hhigh. lia.
    + intros Hp j c Hj. destruct (decide (j = n)) as [->|Hne].
      * intros Hc. apply list_lookup_insert_Some in Hc as [(_ & <- & _)|(? & _)]; [|lia].
        apply Z.mod_pos_bound. exact Hp.
      * rewrite list_lookup_insert_ne by congruence. apply Hlow; [exact Hp|lia].
Qed.

(** The polynomial of the builder: the secret sits in cell [change-1], the
    cells below hold field elements. *)
Lemma generate_coefficients_spec a0 prime change secret st a st' :
  (1 <= change <= length a0)%nat ->
  generate_coefficients a0 prime change secret st = (a, st') ->
  length a = length a0 /\
  a !!! (change - 1)%nat = secret /\
  (0 < prime -> forall j, (j < change - 1)%nat -> 0 <= a !!! j < prime).
Proof.
  intros Hk. unfold generate_coefficients.
  pose proof (generate_coefficients_loop prime (change - 1) a0 st) as H.
  destruct (fold_left _ (seq 0 (change - 1)) (a0, st)) as [cs st1].
  cbn [fst] in H. destruct H as (Hlen & _ & Hlow). intros [= <- <-].
  split; [|split].
  - rewrite length_insert. exact Hlen.
  - apply list_lookup_total_correct, list_lookup_insert_eq. lia.
  - intros Hp j Hj.
    destruct (lookup_lt_is_Some_2 cs j ltac:(lia)) as [c Hc].
    rewrite (list_lookup_total_correct (<[(change - 1)%nat := secret]> cs) j c)
      by (rewrite list_lookup_insert_ne by lia; exact Hc).
    apply (Hlow Hp j c Hj Hc).
Qed.

Lemma generate_secret_range prime st secret st' :
  0 < prime -> generate_secret prime st = (secret, st') -> 0 <= secret < prime.
Proof.
  intros Hp. unfold generate_secret, mpz_urandomm, next_raw. intros [= <- _].
  apply Z.mod_pos_bound. exact Hp.
Qed.

Lemma bigsum_nonneg f n : (forall i, (i < n)%nat -> 0 <= f i) -> 0 <= bigsum f n.
Proof.
  induction n as [|n IH]; intros H; simpl; [lia|].
  pose proof (H n ltac:(lia)). pose proof (IH ltac:(intros; apply H; lia)). lia.
Qed.

Lemma compute_shares_nonneg x a change :
  0 <= x -> (forall j, (j < change)%nat -> 0 <= a !!! j) ->
  0 <= compute_shares x a change.
Proof.
  intros Hx Ha. rewrite compute_shares_bigsum. apply bigsum_nonneg.
  intros j Hj. apply Z.mul_nonneg_nonneg; [apply Z.pow_nonneg; exact Hx|auto].
Qed.

(** ** The batch evaluation of [src/unnamed/part_000] *)

Lemma batch_compute_shares_fill x y a k :
  Batch.compute_shares x y a k = fill (fun i => compute_shares (x !!! i) a k) k y.
Proof.
  unfold Batch.compute_shares, fill. apply fold_left_ext.
  intros l i. cbv zeta. unfold compute_shares.
  rewrite <- fold_left_init_cell. reflexivity.
Qed.

Lemma bigsum_polynomial_from x (a : list Z) s :
  bigsum (fun j => x ^ Z.of_nat (s + j) * (a !!! j)) (length a) = polynomial_from s a x.
Proof.
  revert s. induction a as [|c a IH]; intros s; [reflexivity|].
  cbn [length polynomial_from]. rewrite bigsum_shift, <- IH.
  rewrite Nat.add_0_r. change ((c :: a) !!! O) with c. f_equal; [ring|].
  apply bigsum_ext. intros i _. rewrite Nat.add_succ_r. reflexivity.
Qed.

Lemma distinct_mod_delete p (nodes : list Z) i y :
  distinct_mod p nodes -> (i < length nodes)%nat ->
  y ∈ delete i nodes -> (y - nodes !!! i) mod p ≠ 0.
Proof.
  intros Hd Hi Hy.
  destruct (lookup_lt_is_Some_2 nodes i Hi) as [xi Hxi].
  rewrite (list_lookup_total_correct _ _ _ Hxi).
  rewrite delete_take_drop in Hy.
  assert (distinct_mod p (xi :: take i nodes ++ drop (S i) nodes)) as Hd'.
  { unfold distinct_mod in *. rewrite <- (take_drop_middle nodes i xi Hxi) in Hd.
    eapply NoDup_Permutation_proper; [|exact Hd].
    apply fmap_Permutation, Permutation_middle. }
  intros E. apply cong_sub_zero in E. revert E.
  unfold distinct_mod in Hd'. rewrite fmap_cons, NoDup_cons in Hd'.
  destruct Hd' as [Hnotin _]. intros E. apply Hnotin. rewrite <- E.
  apply list_elem_of_fmap. exists y. split; [reflexivity|exact Hy].
Qed.

Lemma product_cons d l : product (d :: l) = d * product l.
Proof. reflexivity. Qed.

Lemma weight_spec p xi (others : list Z) :
  Z.prime p -> (forall y, y ∈ others -> (y - xi) mod p ≠ 0) ->
  exists invs,
    Forall2 (is_inverse p) ((fun xj => xj - xi) <$> others) invs /\
    weight p xi others = product invs /\
    0 < weight p xi others /\
    (weight p xi others * product ((fun xj => xj - xi) <$> others)) mod p = 1.
Proof.
  intros Hp. pose proof (prime_pos p Hp) as Hpos.
  induction others as [|xj others IH]; intros Hne.
  - exists []. split; [constructor|]. split; [reflexivity|]. split; [reflexivity|].
    apply Z.mod_1_l. lia.
  - destruct IH as (invs & Hf & Hw & Hpos' & Hone).
    { intros y Hy. apply Hne, list_elem_of_further, Hy. }
    pose proof (Hne xj (list_elem_of_here _ _)) as Hd.
    pose proof (inverted_range p Hp _ Hd) as Hr.
    pose proof (inverted_spec p Hp _ Hd) as Hs.
    exists (inverted p (xj - xi) :: invs).
    rewrite fmap_cons, !product_cons. cbn [weight].
    split; [|split; [|split]].
    + constructor; [|exact Hf]. split; [lia|].
      unfold cong in Hs. rewrite Hs. apply Z.mod_1_l. lia.
    + rewrite Hw. ring.
    + apply Z.mul_pos_pos; lia.
    + assert (weight p xi others * inverted p (xj - xi)
              * ((xj - xi) * product ((fun xj0 => xj0 - xi) <$> others)) ≡[p] 1) as E.
      { replace (weight p xi others * inverted p (xj - xi)
                 * ((xj - xi) * product ((fun xj0 => xj0 - xi) <$> others)))
          with ((inverted p (xj - xi) * (xj - xi))
                * (weight p xi others * product ((fun xj0 => xj0 - xi) <$> others)))
          by ring.
        rewrite Hs, Z.mul_1_l. unfold cong. rewrite Hone.
        symmetry. apply Z.mod_1_l. lia. }
      unfold cong in E. rewrite E. apply Z.mod_1_l. lia.
Qed.

Lemma compute_shares_at_zero a change :
  (1 <= change)%nat -> compute_shares 0 a change = a !!! O.
Proof.
  intros Hk. rewrite compute_shares_bigsum.
  destruct change as [|n]; [lia|]. rewrite bigsum_shift.
  rewrite (bigsum_ext _ (fun _ => 0 * 0)).
  - rewrite bigsum_scale. change (Z.of_nat 0) with 0. rewrite Z.pow_0_r. ring.
  - intros i _. rewrite Z.pow_0_l by lia. ring.
Qed.

(** * The claims *)

(** C1.  Round trip at threshold 2: the builder stores the secret 5 in
    the last cell, the shares of participants 1 and 2 are 8 and 13, and
    the reconstruction from these two shares returns 12, which is
    [17 - 5], not the secret. *)
Theorem roundtrip_threshold_two :
  let st := RandState (raw demo_state) 2 in
  let a := (generate_coefficients [0; 0] 17 2 5 st).1 in
  a = [3; 5] /\
  share_set [1; 2] a 2 = [(1, 8); (2, 13)] /\
  reconstruct_from (share_set [1; 2] a 2) 2 17 = Some 12.
Proof. vm_compute. auto. Qed.

(** C2.  The value of the builder's polynomial at 0: with the
    coefficients 3, 2 and the secret 5 in the last cell, the share
    evaluator returns 3 at [x = 0], the first coefficient, not the
    secret. *)
Theorem share_at_zero :
  let st := RandState (raw demo_state) 2 in
  let a := (generate_coefficients [0; 0; 0] 17 3 5 st).1 in
  a = [3; 2; 5] /\ compute_shares 0 a 3 = 3.
Proof. vm_compute. auto. Qed.

(** C3, as stated, fails: for the nodes 1, 2, 3 modulo 17 the coefficient
    of index 2 is [8 * 16 = 128], outside [[0, 17)]. *)
Lemma lagrange_coefficient_exceeds_prime :
  ~ (0 <= compute_lagrange_coefficients [0; 0; 0] [1; 2; 3] 3 17 !!! 2%nat < 17).
Proof. intros [_ H]. vm_compute in H. discriminate. Qed.

(** C3, as amended.  For a prime [p] and exactly [k] x-values pairwise
    distinct in Z/pZ, [alphas[i]] is the integer product, over [j <> i], of the
    inverses of [x_j - x_i] in Z/pZ, each inverse being a field element of
    [[0, p)].  The product is not reduced: it is positive, and its residue
    is the inverse of the product of the differences. *)
Theorem lagrange_coefficients_unreduced p k (x alphas : list Z) i :
  Z.prime p -> length x = k -> (k <= length alphas)%nat ->
  distinct_mod p x -> (i < k)%nat ->
  exists invs,
    Forall2 (is_inverse p) ((fun xj => xj - x !!! i) <$> delete i x) invs /\
    compute_lagrange_coefficients alphas x k p !!! i = product invs /\
    0 < compute_lagrange_coefficients alphas x k p !!! i /\
    (compute_lagrange_coefficients alphas x k p !!! i
     * product ((fun xj => xj - x !!! i) <$> delete i x)) mod p = 1.
Proof.
  intros Hp Hlen Hal Hd Hi.
  rewrite compute_lagrange_coefficients_fill.
  rewrite (list_lookup_total_correct
             (fill (lagrange_coefficient x k p) k alphas) i
             (lagrange_coefficient x k p i))
    by (apply fill_lookup_lt; lia).
  rewrite lagrange_coefficient_weight by lia.
  rewrite firstn_all2 by lia.
  apply weight_spec; [exact Hp|].
  intros y Hy. apply (distinct_mod_delete p x i y Hd); [lia|exact Hy].
Qed.

Lemma lagrange_coefficients_unreduced_witness :
  exists invs,
    Forall2 (is_inverse 17) ((fun xj => xj - [1; 2; 3] !!! 2%nat) <$> delete 2%nat [1; 2; 3]) invs /\
    compute_lagrange_coefficients [0; 0; 0] [1; 2; 3] 3 17 !!! 2%nat = product invs /\
    0 < compute_lagrange_coefficients [0; 0; 0] [1; 2; 3] 3 17 !!! 2%nat /\
    (compute_lagrange_coefficients [0; 0; 0] [1; 2; 3] 3 17 !!! 2%nat
     * product ((fun xj => xj - [1; 2; 3] !!! 2%nat) <$> delete 2%nat [1; 2; 3])) mod 17 = 1.
Proof.
  apply (lagrange_coefficients_unreduced 17 3 [1; 2; 3] [0; 0; 0] 2).
  - apply is_prime_sound. reflexivity.
  - reflexivity.
  - simpl. lia.
  - unfold distinct_mod. apply (bool_decide_unpack _). vm_compute. exact I.
  - lia.
Defined.

(** C4, as stated, fails: the share of participant 2 for the coefficients
    3, 2, 5 is 27, and the sum reduced modulo 17 is 10. *)
Lemma share_not_reduced :
  compute_shares 2 [3; 2; 5] 3 <> polynomial [3; 2; 5] 2 mod 17.
Proof. vm_compute. discriminate. Qed.

(** C4, as amended.  The share value returned by [compute_shares] is the
    integer [Σ_j a[j] * x^j] itself; the function has no modulus, and only
    the residue of the share is the sum reduced modulo [p]. *)
Theorem compute_shares_polynomial x (a : list Z) :
  compute_shares x a (length a) = polynomial a x /\
  forall p, compute_shares x a (length a) mod p = (polynomial a x mod p) mod p.
Proof.
  assert (compute_shares x a (length a) = polynomial a x) as E.
  { rewrite compute_shares_bigsum. apply (bigsum_polynomial_from x a 0). }
  split; [exact E|]. intros p. rewrite E, Zmod_mod. reflexivity.
Qed.

(** C5, as stated, fails: the shares of participants 2, 3, 4 are not
    reduced, the residue of the third is 3 and not 5, and the triple given
    for the reconstruction does not lie on the polynomial. *)
Lemma stated_scenario_fails :
  ~ (compute_shares 1 [3; 2; 5] 3 = 10 /\ compute_shares 2 [3; 2; 5] 3 = 10 /\
     compute_shares 3 [3; 2; 5] 3 = 5 /\ compute_shares 4 [3; 2; 5] 3 = 6 /\
     reconstruct [1; 2; 3] [10; 10; 5] 3 17 = Some 5).
Proof. intros (_ & H & _). vm_compute in H. discriminate. Qed.

(** C5, as amended.  With [p = 17], coefficients 3, 2, 5 and participants
    1, 2, 3, 4 the evaluator returns 10, 27, 54, 91, whose residues are 10,
    10, 3, 6; the reconstruction from the first three shares, reduced or
    not, returns 5, and from the triple (1,10), (2,10), (3,5) it returns 6. *)
Theorem concrete_scenario :
  (fun x => compute_shares x [3; 2; 5] 3) <$> [1; 2; 3; 4] = [10; 27; 54; 91] /\
  (fun y => y mod 17) <$> [10; 27; 54; 91] = [10; 10; 3; 6] /\
  reconstruct [1; 2; 3] [10; 27; 54] 3 17 = Some 5 /\
  reconstruct [1; 2; 3] [10; 10; 3] 3 17 = Some 5 /\
  reconstruct [1; 2; 3] [10; 10; 5] 3 17 = Some 6.
Proof. vm_compute. auto 6. Qed.

(** C6, as stated, fails: with the x-values 1, 1, 2 modulo 17 the
    inversion of [1 - 1] reports a failure, the coefficients are computed
    all the same, and the reconstruction returns the number 10. *)
Lemma duplicate_returns_number :
  (mpz_invert (1 - 1) (1 - 1) 17).1 = false /\
  compute_lagrange_coefficients [0; 0; 0] [1; 1; 2] 3 17 = [0; 0; 256] /\
  reconstruct [1; 1; 2] [10; 10; 27] 3 17 = Some 10.
Proof. vm_compute. auto. Qed.

(** C6, as amended.  For every prime [p] and every sequence of x-values
    with a duplicated x-coordinate, the inversion of the zero difference
    reports a failure, this status is dropped, and the reconstruction path
    signals no error: it returns a number of [[0, p)]. *)
Theorem duplicate_not_rejected p k (x y : list Z) i j :
  Z.prime p -> (i < k)%nat -> (j < k)%nat -> i ≠ j -> x !!! i = x !!! j ->
  (mpz_invert (x !!! j - x !!! i) (x !!! j - x !!! i) p).1 = false /\
  exists v, reconstruct x y k p = Some v /\ 0 <= v < p.
Proof.
  intros Hp _ _ _ E. pose proof (prime_pos p Hp) as Hpos. split.
  - rewrite E, Z.sub_diag. unfold mpz_invert. rewrite Z.gcd_0_l.
    destruct (Z.eqb_spec (Z.abs p) 1) as [H1|_]; [lia|reflexivity].
  - unfold reconstruct, reconstruct_secret, mpz_mod.
    destruct (Z.eqb_spec p 0) as [?|_]; [lia|].
    eexists. split; [reflexivity|]. rewrite Z.abs_eq by lia.
    apply Z.mod_pos_bound. lia.
Qed.

Lemma duplicate_not_rejected_witness :
  (mpz_invert ([1; 1; 2] !!! 1%nat - [1; 1; 2] !!! 0%nat)
              ([1; 1; 2] !!! 1%nat - [1; 1; 2] !!! 0%nat) 17).1 = false /\
  exists v, reconstruct [1; 1; 2] [10; 10; 27] 3 17 = Some v /\ 0 <= v < 17.
Proof.
  apply (duplicate_not_rejected 17 3 [1; 1; 2] [10; 10; 27] 0 1).
  - apply is_prime_sound. reflexivity.
  - lia.
  - lia.
  - lia.
  - reflexivity.
Defined.

(** C7, as stated, fails: in the run that generates the prime 17 and the
    builder's polynomial 3, 2, 5, the share of participant 2 is 27. *)
Lemma share_out_of_range :
  generate_prime 100 BITSTRENGTH demo_state
  = Some (17, RandState (raw demo_state) 1) /\
  generate_coefficients [0; 0; 0] 17 3 5 (RandState (raw demo_state) 2)
  = ([3; 2; 5], RandState (raw demo_state) 4) /\
  ~ (0 <= compute_shares 2 [3; 2; 5] 3 < 17).
Proof.
  split; [vm_compute; reflexivity|]. split; [vm_compute; reflexivity|].
  intros [_ H]. vm_compute in H. discriminate.
Qed.

(** C7, as amended.  The generated prime satisfies [0 <= p], every secret
    produced by [generate_secret] satisfies [0 <= secret < p], and every
    share produced by [compute_shares] for a non-negative x on the
    builder's polynomial satisfies [0 <= y]; the share is not reduced, so
    the bound [< p] holds of its residue [y mod p]. *)
Theorem range_invariants fuel bits st0 p st1 secret st2 a0 k a st3 x :
  generate_prime fuel bits st0 = Some (p, st1) ->
  generate_secret p st1 = (secret, st2) ->
  (1 <= k <= length a0)%nat ->
  generate_coefficients a0 p k secret st2 = (a, st3) ->
  0 <= x ->
  0 <= p /\ 0 <= secret < p /\
  0 <= compute_shares x a k /\ 0 <= compute_shares x a k mod p < p.
Proof.
  intros Hgen Hsec Hk Hco Hx.
  pose proof (prime_pos p (generate_prime_sound _ _ _ _ _ Hgen)) as Hp.
  pose proof (generate_secret_range p st1 secret st2 ltac:(lia) Hsec) as Hs.
  destruct (generate_coefficients_spec _ _ _ _ _ _ _ Hk Hco) as (_ & Hlast & Hlow).
  split; [lia|]. split; [exact Hs|]. split; [|apply Z.mod_pos_bound; lia].
  apply compute_shares_nonneg; [exact Hx|].
  intros j Hj. destruct (decide (j = (k - 1)%nat)) as [->|Hne].
  - rewrite Hlast. lia.
  - apply (Hlow ltac:(lia) j). lia.
Qed.

Lemma range_invariants_witness :
  0 <= 17 /\ 0 <= 5 < 17 /\
  0 <= compute_shares 2 [3; 2; 5] 3 /\ 0 <= compute_shares 2 [3; 2; 5] 3 mod 17 < 17.
Proof.
  apply (range_invariants 100 BITSTRENGTH demo_state 17
           (RandState (raw demo_state) 1) 5 (RandState (raw demo_state) 2)
           [0; 0; 0] 3 [3; 2; 5] (RandState (raw demo_state) 4) 2).
  - vm_compute. reflexivity.
  - vm_compute. reflexivity.
  - simpl. lia.
  - vm_compute. reflexivity.
  - lia.
Defined.

(** C8, as stated, fails: x-coordinates that are pairwise distinct and
    nonzero as integers need not be distinct in Z/pZ.  For the prime 2
    (which [generate_prime] returns for the draws 0 and 1) and the shares
    of the coefficients 0, 0, 1 at the logins 1, 2, 3, 4, the subsets of
    the logins 1, 2, 3 and 2, 3, 4 reconstruct to 0 and to 1. *)
Lemma subset_invariance_integers_fails :
  Z.prime 2 /\
  generate_prime 100 BITSTRENGTH (RandState (fun _ => 1) 0)
  = Some (2, RandState (fun _ => 1) 1) /\
  share_set [1; 2; 3; 4] [0; 0; 1] 3 = [(1, 1); (2, 4); (3, 9); (4, 16)] /\
  NoDup [1; 2; 3] /\ NoDup [2; 3; 4] /\
  Forall (fun x => x <> 0) [1; 2; 3; 4] /\
  reconstruct_from [(1, 1); (2, 4); (3, 9)] 3 2 = Some 0 /\
  reconstruct_from [(2, 4); (3, 9); (4, 16)] 3 2 = Some 1.
Proof.
  split; [apply is_prime_sound; reflexivity|].
  split; [vm_compute; reflexivity|].
  split; [vm_compute; reflexivity|].
  split; [apply (bool_decide_unpack _); vm_compute; exact I|].
  split; [apply (bool_decide_unpack _); vm_compute; exact I|].
  split; [repeat constructor; discriminate|].
  split; vm_compute; reflexivity.
Qed.

(** C8, as amended.  Subset invariance: for a prime [p], a threshold
    [k >= 1] and the shares of any coefficient sequence (in particular one
    built from a secret), two lists of exactly [k] shares drawn from the
    same share set, each with x-coordinates pairwise distinct as elements
    of Z/pZ, reconstruct to the identical value. *)
Theorem subset_invariance p k xs a (sub1 sub2 : list (Z * Z)) :
  Z.prime p -> (1 <= k)%nat ->
  sub1 ⊆ share_set xs a k -> sub2 ⊆ share_set xs a k ->
  length sub1 = k -> length sub2 = k ->
  distinct_mod p (sub1.*1) -> distinct_mod p (sub2.*1) ->
  exists v, reconstruct_from sub1 k p = Some v /\ reconstruct_from sub2 k p = Some v.
Proof.
  intros Hp Hk Hs1 Hs2 Hl1 Hl2 Hd1 Hd2.
  exists (((-1) ^ Z.of_nat (k - 1) * (a !!! (k - 1)%nat)) mod p).
  split; eapply reconstruct_from_value; eauto.
Qed.

Lemma subset_invariance_witness :
  exists v,
    reconstruct_from [(1, 10); (2, 27); (3, 54)] 3 17 = Some v /\
    reconstruct_from [(4, 91); (2, 27); (3, 54)] 3 17 = Some v.
Proof.
  apply (subset_invariance 17 3 [1; 2; 3; 4] [3; 2; 5]).
  - apply is_prime_sound. reflexivity.
  - lia.
  - apply (bool_decide_unpack _). vm_compute. exact I.
  - apply (bool_decide_unpack _). vm_compute. exact I.
  - reflexivity.
  - reflexivity.
  - unfold distinct_mod. apply (bool_decide_unpack _). vm_compute. exact I.
  - unfold distinct_mod. apply (bool_decide_unpack _). vm_compute. exact I.
Defined.

(** C9.  The share written by the batch loop of [src/unnamed/part_000]
    for the participant of index [i] is the share that the per-participant
    [compute_shares] of [src/main.cpp] returns for the same x-value and
    the same coefficients. *)
Theorem batch_share_agrees (x y a : list Z) k i xi :
  (i < k)%nat -> (i < length y)%nat -> x !! i = Some xi ->
  Batch.compute_shares x y a k !! i = Some (compute_shares xi a k).
Proof.
  intros Hk Hy Hx. rewrite batch_compute_shares_fill.
  rewrite (fill_lookup_lt _ k y i Hk Hy).
  rewrite (list_lookup_total_correct _ _ _ Hx). reflexivity.
Qed.

Lemma batch_share_agrees_witness :
  Batch.compute_shares [2; 4; 6; 8] [0; 0; 0; 0] [3; 2; 5] 3 !! 1%nat
  = Some (compute_shares 4 [3; 2; 5] 3).
Proof.
  apply (batch_share_agrees [2; 4; 6; 8] [0; 0; 0; 0] [3; 2; 5] 3 1 4).
  - lia.
  - simpl. lia.
  - reflexivity.
Defined.

(** C10.  The batch loop called with threshold [k] writes the cells
    [0 .. k-1] only: every cell of index [i >= k] of the output sequence is
    left unchanged (no share is produced for that participant), and the
    sequence keeps its length. *)
Theorem batch_shares_frame (x y a : list Z) k i :
  (k <= i)%nat ->
  Batch.compute_shares x y a k !! i = y !! i /\
  length (Batch.compute_shares x y a k) = length y.
Proof.
  intros Hk. rewrite batch_compute_shares_fill. split.
  - apply fill_lookup_ge. exact Hk.
  - apply length_fill.
Qed.

Lemma batch_shares_frame_witness :
  Batch.compute_shares [2; 4; 6; 8] [7; 7; 7; 7] [3; 2; 5] 3 !! 3%nat
  = [7; 7; 7; 7] !! 3%nat /\
  length (Batch.compute_shares [2; 4; 6; 8] [7; 7; 7; 7] [3; 2; 5] 3)
  = length [7; 7; 7; 7].
Proof.
  apply (batch_shares_frame [2; 4; 6; 8] [7; 7; 7; 7] [3; 2; 5] 3 3). lia.
Defined.

(** * Further properties of the programs *)

(** ** The prime generator *)

Lemma no_divisor_from_complete fuel d n :
  no_divisor_from fuel d n = false ->
  2 <= d <= Z.sqrt n + 1 -> d + Z.of_nat fuel = Z.sqrt n + 2 ->
  exists e, d <= e /\ e * e <= n /\ n mod e = 0.
Proof.
  revert d. induction fuel as [|fuel IH]; intros d H Hd Hf; [lia|].
  cbn [no_divisor_from] in H.
  destruct (Z.ltb_spec n (d * d)) as [|Hge]; [discriminate|].
  destruct (Z.eqb_spec (n mod d) 0) as [Hz|Hnz].
  - exists d. repeat split; [lia|exact Hge|exact Hz].
  - assert (d <= Z.sqrt n) as Hle.
    { apply Z.sqrt_le_square; [nia|lia|exact Hge]. }
    destruct (IH (d + 1) H ltac:(lia) ltac:(lia)) as (e & He & Hee & Hm).
    exists e. repeat split; [lia|exact Hee|exact Hm].
Qed.

Lemma is_prime_complete n : Z.prime n -> is_prime n = true.
Proof.
  intros [Hn Hdiv]. unfold is_prime. apply andb_true_iff. split; [apply Z.ltb_lt, Hn|].
  destruct (no_divisor_from (Z.to_nat (Z.sqrt n)) 2 n) eqn:E; [reflexivity|]. exfalso.
  assert (1 <= Z.sqrt n) as Hs by (apply Z.sqrt_le_square; lia).
  destruct (no_divisor_from_complete _ _ _ E ltac:(lia) ltac:(lia)) as (e & He & Hee & Hm).
  apply (Hdiv e); [nia|]. apply Z.mod_divide; [lia|exact Hm].
Qed.

Lemma nextprime_search_least fuel n q :
  nextprime_search fuel n = Some q -> forall r, n < r < q -> ~ Z.prime r.
Proof.
  revert n. induction fuel as [|fuel IH]; intros n; simpl; [discriminate|].
  destruct (is_prime (n + 1)) eqn:E.
  - intros [= <-] r Hr. lia.
  - intros H r Hr Hp. destruct (Z.eq_dec r (n + 1)) as [->|Hne].
    + rewrite (is_prime_complete _ Hp) in E. discriminate.
    + apply (IH _ H r); [lia|exact Hp].
Qed.

Lemma mpz_nextprime_least fuel op q :
  mpz_nextprime fuel op = Some q -> forall r, op < r < q -> ~ Z.prime r.
Proof.
  unfold mpz_nextprime. destruct (Z.ltb_spec op 2).
  - intros [= <-] r Hr [Hr1 _]. lia.
  - apply nextprime_search_least.
Qed.

Lemma mpz_setbit_0 num : mpz_setbit num 0 = 2 * (num / 2) + 1.
Proof.
  unfold mpz_setbit. change (Z.shiftl 1 (Z.of_nat 0)) with (2 * 0 + 1).
  apply Z.bits_inj'. intros n Hn. rewrite Z.lor_spec.
  destruct (Z.eq_dec n 0) as [->|Hne].
  - rewrite !Z.testbit_odd_0. apply orb_true_r.
  - replace n with (Z.succ (n - 1)) by lia.
    rewrite !Z.testbit_odd_succ, Z.bits_0, orb_false_r by lia.
    symmetry. apply Z.div2_bits. lia.
Qed.

(** The odd number handed to [mpz_nextprime]. *)
Lemma generate_prime_inv fuel bits st p st' :
  generate_prime fuel bits st = Some (p, st') ->
  let num := mpz_setbit (raw st (pos st) mod 2 ^ Z.of_nat bits) 0 in
  mpz_nextprime fuel num = Some p /\ st' = RandState (raw st) (S (pos st)).
Proof.
  unfold generate_prime, mpz_urandomb, next_raw. cbv zeta.
  destruct (mpz_nextprime fuel _) as [q|]; [|discriminate].
  intros [= <- <-]. split; reflexivity.
Qed.

Lemma not_prime_4 : ~ Z.prime 4.
Proof. intros [_ H]. apply (H 2); [lia|]. exists 2. reflexivity. Qed.

Lemma generate_prime_cases fuel bits st p st' :
  generate_prime fuel bits st = Some (p, st') ->
  Z.prime p /\
  (p = 2 <-> raw st (pos st) mod 2 ^ Z.of_nat bits < 2) /\ (p = 2 \/ 5 <= p).
Proof.
  intros H. pose proof (generate_prime_sound _ _ _ _ _ H) as Hp.
  apply generate_prime_inv in H as [H _]. rewrite mpz_setbit_0 in H.
  set (r := raw st (pos st) mod 2 ^ Z.of_nat bits) in *.
  assert (0 <= r) as Hr by (apply Z.mod_pos_bound, Z.pow_pos_nonneg; lia).
  split; [exact Hp|].
  destruct (Z_lt_ge_dec r 2) as [Hlt|Hge].
  - assert (r / 2 = 0) as E by (apply Z.div_small; lia).
    rewrite E in H. vm_compute in H. injection H as <-. split; [tauto|left; reflexivity].
  - assert (1 <= r / 2) as E by (apply Z.div_le_lower_bound; lia).
    apply mpz_nextprime_sound in H as [_ Hgt].
    assert (p <> 4) by (intros ->; exact (not_prime_4 Hp)).
    split; [|right; lia]. split; lia.
Qed.

Lemma nextprime_search_mono fuel fuel' n q :
  nextprime_search fuel n = Some q -> (fuel <= fuel')%nat ->
  nextprime_search fuel' n = Some q.
Proof.
  revert fuel' n. induction fuel as [|fuel IH]; intros fuel' n; simpl; [discriminate|].
  intros H Hle. destruct fuel' as [|fuel']; [lia|]. simpl.
  destruct (is_prime (n + 1)); [exact H|]. apply IH; [exact H|lia].
Qed.

Lemma mpz_nextprime_mono fuel fuel' op q :
  mpz_nextprime fuel op = Some q -> (fuel <= fuel')%nat ->
  mpz_nextprime fuel' op = Some q.
Proof.
  unfold mpz_nextprime. destruct (op <? 2); [auto|]. apply nextprime_search_mono.
Qed.

Lemma generate_prime_14_bits fuel st :
  (100 <= fuel)%nat ->
  exists p st', generate_prime fuel BITSTRENGTH st = Some (p, st') /\ p <= 16411.
Proof.
  intros Hf. unfold generate_prime, mpz_urandomb, next_raw.
  set (num := raw st (pos st) mod 2 ^ Z.of_nat BITSTRENGTH).
  destruct (nextprime_14_bits num) as (q & Hq & Hle).
  { apply Z.mod_pos_bound. reflexivity. }
  rewrite (mpz_nextprime_mono _ _ _ _ Hq Hf). eauto.
Qed.


(** ** Properties of the reconstruction *)

Lemma fill_ext {A : Type} (f g : nat -> A) k l :
  (forall i, (i < k)%nat -> f i = g i) -> fill f k l = fill g k l.
Proof.
  induction k as [|k IH]; intros E; [reflexivity|].
  rewrite !fill_S, IH, E by (intros; try apply E; lia). reflexivity.
Qed.

Lemma fold_left_ext_in {A B : Type} (f g : A -> B -> A) (js : list B) (a : A) :
  (forall a j, j ∈ js -> f a j = g a j) -> fold_left f js a = fold_left g js a.
Proof.
  revert a. induction js as [|j js IH]; intros a E; [reflexivity|].
  cbn [fold_left]. rewrite E by apply list_elem_of_here.
  apply IH. intros a' j' Hj. apply E, list_elem_of_further, Hj.
Qed.

Lemma lagrange_coefficient_shift (x : list Z) c k p i :
  (k <= length x)%nat -> (i < k)%nat ->
  lagrange_coefficient ((fun v => v + c) <$> x) k p i = lagrange_coefficient x k p i.
Proof.
  intros Hk Hi. unfold lagrange_coefficient. apply fold_left_ext_in.
  intros alpha j Hj. apply list_elem_of_In, in_seq in Hj.
  destruct (decide (j ≠ i)); [|reflexivity].
  rewrite (list_lookup_total_fmap (fun v => v + c) x j) by lia.
  rewrite (list_lookup_total_fmap (fun v => v + c) x i) by lia.
  replace (x !!! j + c - (x !!! i + c)) with (x !!! j - x !!! i) by ring.
  reflexivity.
Qed.

Lemma cong_pow p a b n : a ≡[p] b -> a ^ Z.of_nat n ≡[p] b ^ Z.of_nat n.
Proof.
  intros E. induction n as [|n IH]; [reflexivity|].
  rewrite Nat2Z.inj_succ, !Z.pow_succ_r by lia. apply cong_mul; [exact E|exact IH].
Qed.

Lemma mpz_mod_pos n p : 0 < p -> mpz_mod n p = Some (n mod p).
Proof.
  intros Hp. unfold mpz_mod. destruct (Z.eqb_spec p 0); [lia|].
  rewrite Z.abs_eq by lia. reflexivity.
Qed.

Lemma bigsum_add f g n : bigsum (fun i => f i + g i) n = bigsum f n + bigsum g n.
Proof. induction n as [|n IH]; simpl; [reflexivity|]. rewrite IH. ring. Qed.

Lemma distinct_mod_small_gaps p (a b c : Z) :
  0 < b - a -> 0 < c - b -> c - a < p -> distinct_mod p [a; b; c].
Proof.
  intros Hab Hbc Hac.
  assert (forall u v, 0 < v - u < p -> u mod p <> v mod p) as Hne.
  { intros u v Huv E. symmetry in E.
    assert ((v - u) mod p = 0) as Hz.
    { rewrite Zminus_mod, E, Z.sub_diag. apply Zmod_0_l. }
    rewrite Z.mod_small in Hz by lia. lia. }
  unfold distinct_mod. cbn [fmap list_fmap].
  repeat (apply NoDup_cons; split); try apply NoDup_nil_2;
    rewrite ?not_elem_of_cons, ?elem_of_nil; repeat split;
    try (apply Hne; lia); tauto.
Qed.

(** X1.  [generate_prime] returns the least prime strictly above the odd
    number obtained from the random draw (the draw of [bit_strength] bits
    with its low bit set), and it consumes one draw of the generator. *)
Theorem generate_prime_least fuel bit_strength st p st' :
  generate_prime fuel bit_strength st = Some (p, st') ->
  let num := mpz_setbit (raw st (pos st) mod 2 ^ Z.of_nat bit_strength) 0 in
  Z.odd num = true /\ Z.prime p /\ num < p /\
  (forall q, num < q < p -> ~ Z.prime q) /\
  st' = RandState (raw st) (S (pos st)).
Proof.
  intros H num. pose proof (generate_prime_sound _ _ _ _ _ H) as Hp.
  apply generate_prime_inv in H as [H ->]. fold num in H.
  split; [unfold num; rewrite mpz_setbit_0; apply Z.odd_odd|].
  split; [exact Hp|]. split; [apply (mpz_nextprime_sound _ _ _ H)|].
  split; [apply (mpz_nextprime_least _ _ _ H)|reflexivity].
Qed.

Lemma generate_prime_least_witness :
  let num := mpz_setbit (raw demo_state (pos demo_state) mod 2 ^ Z.of_nat BITSTRENGTH) 0 in
  Z.odd num = true /\ Z.prime 17 /\ num < 17 /\
  (forall q, num < q < 17 -> ~ Z.prime q) /\
  RandState (raw demo_state) 1 = RandState (raw demo_state) (S (pos demo_state)).
Proof.
  apply (generate_prime_least 100 BITSTRENGTH demo_state 17 (RandState (raw demo_state) 1)).
  vm_compute. reflexivity.
Defined.

(** X2.  The prime returned by [generate_prime] is 2 exactly when the
    random draw is 0 or 1; otherwise it is at least 5.  It is never 3: the
    odd number itself is skipped even when it is prime. *)
Theorem generate_prime_two_or_five fuel bit_strength st p st' :
  generate_prime fuel bit_strength st = Some (p, st') ->
  (p = 2 <-> raw st (pos st) mod 2 ^ Z.of_nat bit_strength < 2) /\
  (p = 2 \/ 5 <= p).
Proof. intros H. apply (generate_prime_cases _ _ _ _ _ H). Qed.

Lemma generate_prime_two_or_five_witness :
  (5 = 2 <-> raw (RandState (fun _ => 3) 0) (pos (RandState (fun _ => 3) 0))
             mod 2 ^ Z.of_nat BITSTRENGTH < 2) /\
  (5 = 2 \/ 5 <= 5).
Proof.
  apply (generate_prime_two_or_five 100 BITSTRENGTH (RandState (fun _ => 3) 0) 5
           (RandState (fun _ => 3) 1)).
  vm_compute. reflexivity.
Defined.

(** X3.  At the bit strength of the program, with room for a hundred
    candidates, [generate_prime] returns for every state of the generator,
    and the prime lies between 2 and 16411.  The upper bound is reached
    (for the draw 16383), so the prime can need one bit more than the bit
    strength. *)
Theorem generate_prime_bit_strength fuel st :
  (100 <= fuel)%nat ->
  (exists p st', generate_prime fuel BITSTRENGTH st = Some (p, st') /\
                 Z.prime p /\ 2 <= p <= 16411) /\
  generate_prime fuel BITSTRENGTH (RandState (fun _ => 16383) 0)
  = Some (16411, RandState (fun _ => 16383) 1) /\
  2 ^ Z.of_nat BITSTRENGTH < 16411.
Proof.
  intros Hf. split; [|split; [|reflexivity]].
  - destruct (generate_prime_14_bits fuel st Hf) as (p & st' & H & Hle).
    exists p, st'. pose proof (generate_prime_sound _ _ _ _ _ H) as Hp.
    pose proof (prime_pos p Hp). auto.
  - unfold generate_prime, mpz_urandomb, next_raw. cbn [raw pos].
    rewrite (mpz_nextprime_mono 100 fuel _ 16411); [reflexivity| |exact Hf].
    vm_compute. reflexivity.
Qed.

Lemma generate_prime_bit_strength_witness :
  (exists p st', generate_prime 100 BITSTRENGTH demo_state = Some (p, st') /\
                 Z.prime p /\ 2 <= p <= 16411) /\
  generate_prime 100 BITSTRENGTH (RandState (fun _ => 16383) 0)
  = Some (16411, RandState (fun _ => 16383) 1) /\
  2 ^ Z.of_nat BITSTRENGTH < 16411.
Proof. apply (generate_prime_bit_strength 100 demo_state). lia. Defined.



(** X5.  Threshold 1: the builder draws nothing and the polynomial is the
    secret alone, so the share of every participant is the secret itself,
    and the reconstruction from any single share returns the secret. *)
Theorem threshold_one a0 p secret st a st' x :
  (1 <= length a0)%nat -> 0 <= secret < p ->
  generate_coefficients a0 p 1 secret st = (a, st') ->
  st' = st /\ compute_shares x a 1 = secret /\
  reconstruct [x] [compute_shares x a 1] 1 p = Some secret.
Proof.
  intros Hlen Hs. unfold generate_coefficients. cbn [Nat.sub seq fold_left].
  intros [= <- <-].
  assert (compute_shares x (<[0%nat := secret]> a0) 1 = secret) as E.
  { rewrite compute_shares_bigsum. cbn [bigsum].
    rewrite list_lookup_total_insert_eq by lia. change (Z.of_nat 0) with 0.
    rewrite Z.pow_0_r. ring. }
  split; [reflexivity|]. split; [exact E|]. rewrite E.
  unfold reconstruct. rewrite reconstruct_secret_bigsum, compute_lagrange_coefficients_fill.
  cbn. rewrite decide_False by (intros H; apply H; reflexivity).
  cbn. rewrite mpz_mod_pos by lia. f_equal.
  transitivity (secret mod p); [f_equal; ring|apply Z.mod_small, Hs].
Qed.

Lemma threshold_one_witness :
  RandState (raw demo_state) 2 = RandState (raw demo_state) 2 /\
  compute_shares 7 [5] 1 = 5 /\
  reconstruct [7] [compute_shares 7 [5] 1] 1 17 = Some 5.
Proof.
  apply (threshold_one [0] 17 5 (RandState (raw demo_state) 2) [5]
           (RandState (raw demo_state) 2) 7).
  - simpl. lia.
  - lia.
  - reflexivity.
Defined.

(** X6.  The reconstruction depends on the x-values through their
    differences only: adding one constant to every x-value changes neither
    the coefficients computed by [compute_lagrange_coefficients] nor the
    value returned by the reconstruction. *)
Theorem reconstruct_translation (x y alphas : list Z) c k p :
  (k <= length x)%nat ->
  compute_lagrange_coefficients alphas ((fun v => v + c) <$> x) k p
  = compute_lagrange_coefficients alphas x k p /\
  reconstruct ((fun v => v + c) <$> x) y k p = reconstruct x y k p.
Proof.
  intros Hk.
  assert (forall l, compute_lagrange_coefficients l ((fun v => v + c) <$> x) k p
                    = compute_lagrange_coefficients l x k p) as E.
  { intros l. rewrite !compute_lagrange_coefficients_fill. apply fill_ext.
    intros i Hi. apply lagrange_coefficient_shift; assumption. }
  split; [apply E|]. unfold reconstruct. rewrite E. reflexivity.
Qed.

Lemma reconstruct_translation_witness :
  compute_lagrange_coefficients [0; 0; 0] ((fun v => v + 100) <$> [1; 2; 3]) 3 17
  = compute_lagrange_coefficients [0; 0; 0] [1; 2; 3] 3 17 /\
  reconstruct ((fun v => v + 100) <$> [1; 2; 3]) [10; 27; 54] 3 17
  = reconstruct [1; 2; 3] [10; 27; 54] 3 17.
Proof.
  apply (reconstruct_translation [1; 2; 3] [10; 27; 54] [0; 0; 0] 100 3 17).
  simpl. lia.
Defined.

(** X7.  [reconstruct_secret] reduces once, at the end: reducing the
    coefficients and the shares modulo a positive [p] beforehand does not
    change the value it returns. *)
Theorem reconstruct_secret_reduced (alphas shares : list Z) k p :
  0 < p -> (k <= length alphas)%nat -> (k <= length shares)%nat ->
  reconstruct_secret ((fun v => v mod p) <$> alphas) ((fun v => v mod p) <$> shares) k p
  = reconstruct_secret alphas shares k p.
Proof.
  intros Hp Ha Hs. rewrite !reconstruct_secret_bigsum, !mpz_mod_pos by exact Hp.
  f_equal. apply bigsum_cong. intros i Hi.
  rewrite (list_lookup_total_fmap (fun v => v mod p) alphas i) by lia.
  rewrite (list_lookup_total_fmap (fun v => v mod p) shares i) by lia.
  apply cong_mul; apply cong_mod.
Qed.

Lemma reconstruct_secret_reduced_witness :
  reconstruct_secret ((fun v => v mod 17) <$> [9; 16; 128])
                     ((fun v => v mod 17) <$> [10; 27; 54]) 3 17
  = reconstruct_secret [9; 16; 128] [10; 27; 54] 3 17.
Proof.
  apply (reconstruct_secret_reduced [9; 16; 128] [10; 27; 54] 3 17).
  - lia.
  - simpl. lia.
  - simpl. lia.
Defined.

(** X8.  [reconstruct_secret] is additive in the shares: recombining the
    cell-wise sums of two share vectors returns the sum, modulo a positive
    [p], of the two values recombined separately. *)
Theorem reconstruct_secret_additive (alphas y1 y2 : list Z) k p v1 v2 :
  0 < p -> (k <= length y1)%nat -> (k <= length y2)%nat ->
  reconstruct_secret alphas y1 k p = Some v1 ->
  reconstruct_secret alphas y2 k p = Some v2 ->
  reconstruct_secret alphas (zip_with Z.add y1 y2) k p = Some ((v1 + v2) mod p).
Proof.
  intros Hp H1 H2. rewrite !reconstruct_secret_bigsum, !mpz_mod_pos by exact Hp.
  intros [= <-] [= <-]. f_equal.
  rewrite <- Zplus_mod, <- bigsum_add. f_equal. apply bigsum_ext. intros i Hi.
  destruct (lookup_lt_is_Some_2 y1 i ltac:(lia)) as [u Hu].
  destruct (lookup_lt_is_Some_2 y2 i ltac:(lia)) as [v Hv].
  rewrite (list_lookup_total_correct (zip_with Z.add y1 y2) i (u + v))
    by (rewrite lookup_zip_with, Hu, Hv; reflexivity).
  rewrite (list_lookup_total_correct y1 i u Hu), (list_lookup_total_correct y2 i v Hv).
  ring.
Qed.

Lemma reconstruct_secret_additive_witness :
  reconstruct_secret [9; 16; 128] (zip_with Z.add [10; 27; 54] [1; 4; 9]) 3 17
  = Some ((5 + 1) mod 17).
Proof.
  apply (reconstruct_secret_additive [9; 16; 128] [10; 27; 54] [1; 4; 9] 3 17 5 1).
  - lia.
  - simpl. lia.
  - simpl. lia.
  - vm_compute. reflexivity.
  - vm_compute. reflexivity.
Defined.

(** X9.  The value of the reconstruction: for a prime [p], a threshold
    [k >= 1] and x-values whose first [k] are pairwise distinct in Z/pZ,
    recombining the shares computed by [compute_shares] from a coefficient
    sequence [a] returns [(-1)^(k-1) * a[k-1]] modulo [p], whatever the
    other coefficients are. *)
Theorem reconstruction_law p k (x y a : list Z) :
  Z.prime p -> (1 <= k <= length x)%nat -> distinct_mod p (take k x) ->
  (forall i, (i < k)%nat -> y !!! i = compute_shares (x !!! i) a k) ->
  reconstruct x y k p
  = Some (((-1) ^ Z.of_nat (k - 1) * (a !!! (k - 1)%nat)) mod p).
Proof. apply reconstruct_value. Qed.

Lemma reconstruction_law_witness :
  reconstruct [1; 2; 3; 4] [10; 27; 54; 91] 3 17
  = Some (((-1) ^ Z.of_nat (3 - 1) * ([3; 2; 5] !!! (3 - 1)%nat)) mod 17).
Proof.
  apply (reconstruction_law 17 3 [1; 2; 3; 4] [10; 27; 54; 91] [3; 2; 5]).
  - apply is_prime_sound. reflexivity.
  - simpl. lia.
  - unfold distinct_mod. apply (bool_decide_unpack _). vm_compute. exact I.
  - intros i Hi. destruct i as [|[|[|i]]]; try lia; reflexivity.
Defined.

(** X10.  Round trip for an odd threshold: for a prime [p], an odd [k] and
    a secret of [[0, p)], any [k] shares of the polynomial built by
    [generate_coefficients], with x-values pairwise distinct in Z/pZ,
    reconstruct to the secret. *)
Theorem roundtrip_odd p k a0 secret st a st' xs (sub : list (Z * Z)) :
  Z.prime p -> Nat.Odd k -> (k <= length a0)%nat -> 0 <= secret < p ->
  generate_coefficients a0 p k secret st = (a, st') ->
  sub ⊆ share_set xs a k -> length sub = k -> distinct_mod p (sub.*1) ->
  reconstruct_from sub k p = Some secret.
Proof.
  intros Hp Hodd Hk Hs Hgen Hsub Hlen Hd.
  assert (1 <= k)%nat as Hk1 by (destruct Hodd as [m ->]; lia).
  destruct (generate_coefficients_spec _ _ _ _ _ _ _ (conj Hk1 Hk) Hgen) as (_ & Hlast & _).
  apply (roundtrip_odd_threshold p k xs a sub secret); assumption.
Qed.

Lemma roundtrip_odd_witness :
  reconstruct_from [(4, 91); (2, 27); (3, 54)] 3 17 = Some 5.
Proof.
  apply (roundtrip_odd 17 3 [0; 0; 0] 5 (RandState (raw demo_state) 2) [3; 2; 5]
           (RandState (raw demo_state) 4) [1; 2; 3; 4]).
  - apply is_prime_sound. reflexivity.
  - exists 1%nat. reflexivity.
  - simpl. lia.
  - lia.
  - vm_compute. reflexivity.
  - apply (bool_decide_unpack _). vm_compute. exact I.
  - reflexivity.
  - unfold distinct_mod. apply (bool_decide_unpack _). vm_compute. exact I.
Defined.

(** X11.  For an even threshold the same pipeline returns the opposite of
    the secret modulo [p]: it differs from a secret of [[0, p)] as soon as
    the secret is not 0 and [p] is odd. *)
Theorem roundtrip_even p k a0 secret st a st' xs (sub : list (Z * Z)) :
  Z.prime p -> Nat.Even k -> (1 <= k <= length a0)%nat -> 0 <= secret < p ->
  generate_coefficients a0 p k secret st = (a, st') ->
  sub ⊆ share_set xs a k -> length sub = k -> distinct_mod p (sub.*1) ->
  reconstruct_from sub k p = Some ((- secret) mod p) /\
  (secret <> 0 -> p <> 2 -> reconstruct_from sub k p <> Some secret).
Proof.
  intros Hp Heven Hk Hs Hgen Hsub Hlen Hd.
  destruct (generate_coefficients_spec _ _ _ _ _ _ _ Hk Hgen) as (_ & Hlast & _).
  assert (reconstruct_from sub k p = Some ((- secret) mod p)) as E.
  { apply (roundtrip_even_threshold p k xs a sub secret); try assumption. lia. }
  split; [exact E|]. intros Hne Hp2. rewrite E. intros [= Hm].
  assert ((- secret) mod p = p - secret) as Hneg.
  { rewrite Z.mod_opp_l_nz by (rewrite ?Z.mod_small; lia).
    rewrite Z.mod_small by lia. reflexivity. }
  rewrite Hneg in Hm. assert (p = 2 * secret) as Hp' by lia.
  destruct Hp as [_ Hdiv]. apply (Hdiv secret); [lia|]. exists 2. lia.
Qed.

Lemma roundtrip_even_witness :
  reconstruct_from [(1, 8); (2, 13)] 2 17 = Some ((- 5) mod 17) /\
  (5 <> 0 -> 17 <> 2 -> reconstruct_from [(1, 8); (2, 13)] 2 17 <> Some 5).
Proof.
  apply (roundtrip_even 17 2 [0; 0] 5 (RandState (raw demo_state) 2) [3; 5]
           (RandState (raw demo_state) 3) [1; 2]).
  - apply is_prime_sound. reflexivity.
  - exists 1%nat. reflexivity.
  - simpl. lia.
  - lia.
  - vm_compute. reflexivity.
  - apply (bool_decide_unpack _). vm_compute. exact I.
  - reflexivity.
  - unfold distinct_mod. apply (bool_decide_unpack _). vm_compute. exact I.
Defined.

(** ** The two [main] functions *)

Lemma compute_shares_main_cpp x secret :
  compute_shares x [0; 0; secret] 3 = secret * x ^ 2.
Proof.
  rewrite compute_shares_bigsum. cbn [bigsum].
  change ([0; 0; secret] !!! 0%nat) with 0. change ([0; 0; secret] !!! 1%nat) with 0.
  change ([0; 0; secret] !!! 2%nat) with secret. change (Z.of_nat 2) with 2. ring.
Qed.

(** The run of [src/main.cpp], step by step. *)
Lemma main_steps fuel st :
  (100 <= fuel)%nat ->
  exists p st1 secret st2 Sr,
    generate_prime fuel BITSTRENGTH st = Some (p, st1) /\
    generate_secret p st1 = (secret, st2) /\
    reconstruct [1; 2; 3; 4]
                ((fun x => compute_shares x [0; 0; secret] 3) <$> [1; 2; 3; 4]) 3 p
    = Some Sr /\
    main fuel st
    = Some (Run p secret [0; 0; secret] [1; 2; 3; 4]
                ((fun x => compute_shares x [0; 0; secret] 3) <$> [1; 2; 3; 4]) Sr).
Proof.
  intros Hf. destruct (generate_prime_14_bits fuel st Hf) as (p & st1 & Hgen & _).
  pose proof (prime_pos p (generate_prime_sound _ _ _ _ _ Hgen)) as Hp.
  destruct (generate_secret p st1) as [secret st2] eqn:Hsec.
  set (y := (fun x => compute_shares x [0; 0; secret] 3) <$> [1; 2; 3; 4]).
  assert (exists Sr, reconstruct [1; 2; 3; 4] y 3 p = Some Sr) as [Sr HSr].
  { unfold reconstruct, reconstruct_secret. rewrite mpz_mod_pos by lia. eauto. }
  exists p, st1, secret, st2, Sr. repeat split; try assumption.
  unfold main. rewrite Hgen, Hsec. cbv zeta.
  change (fold_left (fun a i => <[i := 0]> a) (seq 0 (3 - 1)) (replicate 3 0))
    with [0; 0; 0].
  change (<[(3 - 1)%nat := secret]> [0; 0; 0]) with [0; 0; secret].
  change (fold_left (fun x i => <[i := Z.of_nat (i + 1)]> x) (seq 0 4) (replicate 4 0))
    with [1; 2; 3; 4].
  change (fold_left (fun y i => <[i := compute_shares ([1; 2; 3; 4] !!! i) [0; 0; secret] 3]> y)
                    (seq 0 4) (replicate 4 0)) with y.
  change (reconstruct_secret (compute_lagrange_coefficients (replicate 3 0) [1; 2; 3; 4] 3 p) y 3 p)
    with (reconstruct [1; 2; 3; 4] y 3 p).
  rewrite HSr. reflexivity.
Qed.

(** X12.  [main] of [src/main.cpp], with room for a hundred candidates in
    the prime search, runs to the end for every seed; the prime it prints
    is a prime, the secret lies in [[0, p)], and unless the prime is 2 the
    reconstructed secret it prints is the secret. *)
Theorem main_reconstructs fuel st :
  (100 <= fuel)%nat ->
  exists r, main fuel st = Some r /\
            Z.prime (run_p r) /\ 0 <= run_S r < run_p r /\
            (run_p r <> 2 -> run_Sr r = run_S r).
Proof.
  intros Hf. destruct (main_steps fuel st Hf) as (p & st1 & secret & st2 & Sr & Hgen & Hsec & HSr & Hmain).
  destruct (generate_prime_cases _ _ _ _ _ Hgen) as (Hp & _ & Hcase).
  pose proof (prime_pos p Hp) as Hpos.
  pose proof (generate_secret_range p st1 secret st2 ltac:(lia) Hsec) as Hs.
  eexists. split; [exact Hmain|]. cbn [run_p run_S run_Sr].
  split; [exact Hp|]. split; [exact Hs|]. intros Hne.
  rewrite (reconstruct_value p 3 _ _ [0; 0; secret] Hp) in HSr.
  - injection HSr as <-. change ([0; 0; secret] !!! (3 - 1)%nat) with secret.
    change ((-1) ^ Z.of_nat (3 - 1)) with 1. rewrite Z.mul_1_l. apply Z.mod_small, Hs.
  - simpl. lia.
  - apply distinct_mod_small_gaps; lia.
  - intros i Hi. destruct i as [|[|[|i]]]; try lia; reflexivity.
Qed.

Lemma main_reconstructs_witness :
  exists r, main 100 demo_state = Some r /\
            Z.prime (run_p r) /\ 0 <= run_S r < run_p r /\
            (run_p r <> 2 -> run_Sr r = run_S r).
Proof. apply (main_reconstructs 100 demo_state). lia. Defined.

(** X13.  [main] of [src/main.cpp] never calls [generate_coefficients]:
    the coefficients below the secret are 0, so the share of the user of
    login [x] is [secret * x^2].  The shares of the logins 1, 2, 3, 4 are
    the secret and its multiples by 4, 9 and 16; the first share is the
    secret itself. *)
Theorem main_shares fuel st :
  (100 <= fuel)%nat ->
  exists r, main fuel st = Some r /\
            run_a r = [0; 0; run_S r] /\ run_x r = [1; 2; 3; 4] /\
            run_y r = [run_S r; 4 * run_S r; 9 * run_S r; 16 * run_S r].
Proof.
  intros Hf. destruct (main_steps fuel st Hf) as (p & st1 & secret & st2 & Sr & _ & _ & _ & Hmain).
  eexists. split; [exact Hmain|]. cbn [run_a run_x run_y run_S].
  split; [reflexivity|]. split; [reflexivity|].
  cbn [fmap list_fmap]. rewrite !compute_shares_main_cpp.
  f_equal; [ring|]. f_equal; [ring|]. f_equal; [ring|]. f_equal. ring.
Qed.

Lemma main_shares_witness :
  exists r, main 100 demo_state = Some r /\
            run_a r = [0; 0; run_S r] /\ run_x r = [1; 2; 3; 4] /\
            run_y r = [run_S r; 4 * run_S r; 9 * run_S r; 16 * run_S r].
Proof. apply (main_shares 100 demo_state). lia. Defined.

(** The run of [src/unnamed/part_000], step by step. *)
Lemma part000_main_steps fuel st :
  (100 <= fuel)%nat ->
  exists p st1 secret st2 c0 c1 Sr,
    generate_prime fuel BITSTRENGTH st = Some (p, st1) /\
    generate_secret p st1 = (secret, st2) /\
    0 <= c0 < p /\ 0 <= c1 < p /\
    reconstruct [2; 4; 6; 8]
                [compute_shares 2 [c0; c1; secret] 3; compute_shares 4 [c0; c1; secret] 3;
                 compute_shares 6 [c0; c1; secret] 3; 0] 3 p
    = Some Sr /\
    Batch.main fuel st
    = Some (Run p secret [c0; c1; secret] [2; 4; 6; 8]
                [compute_shares 2 [c0; c1; secret] 3; compute_shares 4 [c0; c1; secret] 3;
                 compute_shares 6 [c0; c1; secret] 3; 0] Sr).
Proof.
  intros Hf. destruct (generate_prime_14_bits fuel st Hf) as (p & st1 & Hgen & _).
  pose proof (prime_pos p (generate_prime_sound _ _ _ _ _ Hgen)) as Hp.
  destruct (generate_secret p st1) as [secret st2] eqn:Hsec.
  set (c0 := raw st2 (pos st2) mod p). set (c1 := raw st2 (S (pos st2)) mod p).
  set (a := [c0; c1; secret]).
  set (y := [compute_shares 2 a 3; compute_shares 4 a 3; compute_shares 6 a 3; 0]).
  assert (exists Sr, reconstruct [2; 4; 6; 8] y 3 p = Some Sr) as [Sr HSr].
  { unfold reconstruct, reconstruct_secret. rewrite mpz_mod_pos by lia. eauto. }
  exists p, st1, secret, st2, c0, c1, Sr.
  split; [exact Hgen|]. split; [exact Hsec|].
  split; [apply Z.mod_pos_bound; lia|]. split; [apply Z.mod_pos_bound; lia|].
  split; [exact HSr|].
  unfold Batch.main. rewrite Hgen, Hsec. cbv zeta.
  change (generate_coefficients (replicate 3 0) p 3 secret st2)
    with (a, RandState (raw st2) (S (S (pos st2)))).
  cbv iota beta.
  change (<[(3 - 1)%nat := secret]> a) with a.
  change (fold_left (fun x i => <[i := Z.of_nat ((i + 1) * 2)]> x) (seq 0 4) (replicate 4 0))
    with [2; 4; 6; 8].
  rewrite batch_compute_shares_fill.
  change (fill (fun i => compute_shares ([2; 4; 6; 8] !!! i) a 3) 3 (replicate 4 0)) with y.
  change (reconstruct_secret (compute_lagrange_coefficients (replicate 3 0) [2; 4; 6; 8] 3 p) y 3 p)
    with (reconstruct [2; 4; 6; 8] y 3 p).
  rewrite HSr. reflexivity.
Qed.

(** X14.  [main] of [src/unnamed/part_000], with room for a hundred
    candidates in the prime search, runs to the end for every seed; the
    two coefficients below the secret are field elements of [[0, p)], the
    last coefficient is the secret, and unless the prime is 2 the
    reconstructed secret it prints is the secret. *)
Theorem part000_main_reconstructs fuel st :
  (100 <= fuel)%nat ->
  exists r, Batch.main fuel st = Some r /\
            Z.prime (run_p r) /\ 0 <= run_S r < run_p r /\
            (exists c0 c1, run_a r = [c0; c1; run_S r] /\
                           0 <= c0 < run_p r /\ 0 <= c1 < run_p r) /\
            (run_p r <> 2 -> run_Sr r = run_S r).
Proof.
  intros Hf.
  destruct (part000_main_steps fuel st Hf)
    as (p & st1 & secret & st2 & c0 & c1 & Sr & Hgen & Hsec & Hc0 & Hc1 & HSr & Hmain).
  destruct (generate_prime_cases _ _ _ _ _ Hgen) as (Hp & _ & Hcase).
  pose proof (prime_pos p Hp) as Hpos.
  pose proof (generate_secret_range p st1 secret st2 ltac:(lia) Hsec) as Hs.
  eexists. split; [exact Hmain|]. cbn [run_p run_S run_Sr run_a].
  split; [exact Hp|]. split; [exact Hs|]. split; [exists c0, c1; auto|]. intros Hne.
  rewrite (reconstruct_value p 3 _ _ [c0; c1; secret] Hp) in HSr.
  - injection HSr as <-. change ([c0; c1; secret] !!! (3 - 1)%nat) with secret.
    change ((-1) ^ Z.of_nat (3 - 1)) with 1. rewrite Z.mul_1_l. apply Z.mod_small, Hs.
  - simpl. lia.
  - apply distinct_mod_small_gaps; lia.
  - intros i Hi. destruct i as [|[|[|i]]]; try lia; reflexivity.
Qed.

Lemma part000_main_reconstructs_witness :
  exists r, Batch.main 100 demo_state = Some r /\
            Z.prime (run_p r) /\ 0 <= run_S r < run_p r /\
            (exists c0 c1, run_a r = [c0; c1; run_S r] /\
                           0 <= c0 < run_p r /\ 0 <= c1 < run_p r) /\
            (run_p r <> 2 -> run_Sr r = run_S r).
Proof. apply (part000_main_reconstructs 100 demo_state). lia. Defined.

(** X15.  [main] of [src/unnamed/part_000] gives the logins 2, 4, 6, 8 to
    its four users but computes the shares of the first three only, the
    batch [compute_shares] being called with the threshold: the fourth
    cell of the shares keeps the zero it was created with, which is not
    the value of the polynomial at the fourth login when the secret is
    not 0. *)
Theorem part000_main_fourth_share fuel st :
  (100 <= fuel)%nat ->
  exists r, Batch.main fuel st = Some r /\
            run_x r = [2; 4; 6; 8] /\
            (forall i, (i < 3)%nat ->
                       run_y r !!! i = compute_shares (run_x r !!! i) (run_a r) 3) /\
            run_y r !!! 3%nat = 0 /\
            (0 < run_S r ->
             run_y r !!! 3%nat <> compute_shares (run_x r !!! 3%nat) (run_a r) 3).
Proof.
  intros Hf.
  destruct (part000_main_steps fuel st Hf)
    as (p & st1 & secret & st2 & c0 & c1 & Sr & _ & _ & Hc0 & Hc1 & _ & Hmain).
  eexists. split; [exact Hmain|]. cbn [run_x run_y run_a run_S].
  split; [reflexivity|]. split.
  { intros i Hi. destruct i as [|[|[|i]]]; try lia; reflexivity. }
  split; [reflexivity|]. intros Hs.
  change ([2; 4; 6; 8] !!! 3%nat) with 8.
  change (0 <> compute_shares 8 [c0; c1; secret] 3).
  rewrite compute_shares_bigsum. cbn [bigsum].
  change ([c0; c1; secret] !!! 0%nat) with c0. change ([c0; c1; secret] !!! 1%nat) with c1.
  change ([c0; c1; secret] !!! 2%nat) with secret.
  change (Z.of_nat 0) with 0. change (Z.of_nat 1) with 1. change (Z.of_nat 2) with 2.
  rewrite Z.pow_0_r, Z.pow_1_r. change (8 ^ 2) with 64. lia.
Qed.

Lemma part000_main_fourth_share_witness :
  exists r, Batch.main 100 demo_state = Some r /\
            run_x r = [2; 4; 6; 8] /\
            (forall i, (i < 3)%nat ->
                       run_y r !!! i = compute_shares (run_x r !!! i) (run_a r) 3) /\
            run_y r !!! 3%nat = 0 /\
            (0 < run_S r ->
             run_y r !!! 3%nat <> compute_shares (run_x r !!! 3%nat) (run_a r) 3).
Proof. apply (part000_main_fourth_share 100 demo_state). lia. Defined.

(** ** Further properties of the evaluators *)

(** X16.  The batch [compute_shares] is idempotent: the cells it writes do
    not depend on what they held before, so a second call with the same
    arguments leaves its output as it is. *)
Theorem batch_compute_shares_idempotent (x y a : list Z) k :
  Batch.compute_shares x (Batch.compute_shares x y a k) a k
  = Batch.compute_shares x y a k.
Proof.
  rewrite !batch_compute_shares_fill. apply list_eq. intros i.
  destruct (decide (i < k)%nat) as [Hlt|Hge].
  - destruct (decide (i < length y)%nat) as [Hy|Hy].
    + rewrite !fill_lookup_lt; auto. rewrite length_fill. exact Hy.
    + rewrite !(proj2 (lookup_ge_None _ i)); auto; rewrite !length_fill; lia.
  - rewrite fill_lookup_ge by lia. reflexivity.
Qed.

(** X17.  [compute_lagrange_coefficients] writes the cells [0 .. k-1] of
    [alphas] only: every cell of index [i >= k] is left unchanged, and the
    vector keeps its length. *)
Theorem compute_lagrange_coefficients_frame (alphas x : list Z) k p i :
  (k <= i)%nat ->
  compute_lagrange_coefficients alphas x k p !! i = alphas !! i /\
  length (compute_lagrange_coefficients alphas x k p) = length alphas.
Proof.
  intros Hk. rewrite compute_lagrange_coefficients_fill. split.
  - apply fill_lookup_ge, Hk.
  - apply length_fill.
Qed.

Lemma compute_lagrange_coefficients_frame_witness :
  compute_lagrange_coefficients [7; 7; 7; 7] [1; 2; 3; 4] 3 17 !! 3%nat
  = [7; 7; 7; 7] !! 3%nat /\
  length (compute_lagrange_coefficients [7; 7; 7; 7] [1; 2; 3; 4] 3 17)
  = length [7; 7; 7; 7].
Proof.
  apply (compute_lagrange_coefficients_frame [7; 7; 7; 7] [1; 2; 3; 4] 3 17 3). lia.
Defined.

(** X18.  Logins that are congruent modulo [p] receive shares that are
    congruent modulo [p]: the reconstruction modulo [p] cannot tell such
    users apart. *)
Theorem compute_shares_congruent p x x' (a : list Z) k :
  x mod p = x' mod p ->
  compute_shares x a k mod p = compute_shares x' a k mod p.
Proof.
  intros E. rewrite !compute_shares_bigsum. apply bigsum_cong.
  intros j _. apply cong_mul; [apply cong_pow; exact E|reflexivity].
Qed.

Lemma compute_shares_congruent_witness :
  compute_shares 1 [3; 2; 5] 3 mod 17 = compute_shares 18 [3; 2; 5] 3 mod 17.
Proof. apply (compute_shares_congruent 17 1 18 [3; 2; 5] 3). reflexivity. Defined.

(** X19.  [compute_shares] is additive in the coefficients: the share of a
    user for the cell-wise sum of two coefficient sequences is the sum of
    its shares for the two sequences. *)
Theorem compute_shares_additive x (a b : list Z) k :
  (k <= length a)%nat -> (k <= length b)%nat ->
  compute_shares x (zip_with Z.add a b) k
  = compute_shares x a k + compute_shares x b k.
Proof.
  intros Ha Hb. rewrite !compute_shares_bigsum, <- bigsum_add.
  apply bigsum_ext. intros j Hj.
  destruct (lookup_lt_is_Some_2 a j ltac:(lia)) as [u Hu].
  destruct (lookup_lt_is_Some_2 b j ltac:(lia)) as [v Hv].
  rewrite (list_lookup_total_correct (zip_with Z.add a b) j (u + v))
    by (rewrite lookup_zip_with, Hu, Hv; reflexivity).
  rewrite (list_lookup_total_correct a j u Hu), (list_lookup_total_correct b j v Hv).
  ring.
Qed.

Lemma compute_shares_additive_witness :
  compute_shares 2 (zip_with Z.add [3; 2; 5] [1; 1; 1]) 3
  = compute_shares 2 [3; 2; 5] 3 + compute_shares 2 [1; 1; 1] 3.
Proof.
  apply (compute_shares_additive 2 [3; 2; 5] [1; 1; 1] 3); simpl; lia.
Defined.
